(** * Control tower: priority queue, operating states, dispatcher, runways

    A shallow embedding of the Go program (package [main], the tower client)
    and a verification of the properties stated about it.  Package-level
    variables become the fields of the record [Globals]; every function that
    runs under the mutex [mu] is a pure function on [Globals] that also
    returns what it wrote to standard output. *)

From Stdlib Require Import ZArith Lia Arith ZifyNat Sorted Ascii String.
From stdpp Require Import base list strings pretty gmap.

Ltac Zify.zify_post_hook ::= Z.div_mod_to_equations.

Local Open Scope Z_scope.

(** ** Aircraft and the priority queue *)

(** [type Avion struct]; Go's [int] is kept as [Z], the values that occur
    are small. *)
Record Avion := mkAvion {
  id : Z;
  categoria : string;
  numPasajeros : Z;
  prioridad : Z
}.

#[global] Instance Avion_eq_dec : EqDecision Avion.
Proof. solve_decision. Defined.

(** [type AvionHeap []Avion] *)
Abbreviation AvionHeap := (list Avion).

Definition Len (h : AvionHeap) : nat := length h.

(** [h[i].prioridad > h[j].prioridad].  An index outside the slice panics in
    Go; [container/heap] only passes indices below [Len], where both lookups
    succeed. *)
Definition Less (h : AvionHeap) (i j : nat) : bool :=
  match h !! i, h !! j with
  | Some a, Some b => bool_decide (prioridad a > prioridad b)
  | _, _ => false
  end.

(** [h[i], h[j] = h[j], h[i]] *)
Definition Swap (h : AvionHeap) (i j : nat) : AvionHeap :=
  match h !! i, h !! j with
  | Some a, Some b => <[j := a]> (<[i := b]> h)
  | _, _ => h
  end.

(** [*h = append( *h, x)] *)
Definition Push (h : AvionHeap) (x : Avion) : AvionHeap := h ++ [x].

(** [x := old[n-1]; *h = old[0 : n-1]; return x]; indexing an empty slice
    panics, which is [None] here. *)
Definition Pop (h : AvionHeap) : option (Avion * AvionHeap) :=
  match last h with
  | Some x => Some (x, take (length h - 1) h)
  | None => None
  end.

(** *** [container/heap] over [AvionHeap]

    The two sifting loops of the Go library.  Each loop is a [Fixpoint] on a
    fuel argument; [up] and [down] supply a bound that the loop never uses up
    (lemmas [up_loop_fuel] and [down_loop_fuel]). *)
Fixpoint up_loop (fuel : nat) (h : AvionHeap) (j : nat) : AvionHeap :=
  match fuel with
  | O => h
  | S fuel' =>
      let i := ((j - 1) / 2)%nat in  (* parent *)
      if (i =? j)%nat || negb (Less h j i) then h
      else up_loop fuel' (Swap h i j) i
  end.

Definition up (h : AvionHeap) (j : nat) : AvionHeap := up_loop (S j) h j.

Fixpoint down_loop (fuel : nat) (h : AvionHeap) (i n : nat) : AvionHeap :=
  match fuel with
  | O => h
  | S fuel' =>
      let j1 := (2 * i + 1)%nat in
      if (n <=? j1)%nat then h
      else
        let j := if (j1 + 1 <? n)%nat && Less h (j1 + 1) j1
                 then (j1 + 1)%nat else j1 in
        if negb (Less h j i) then h
        else down_loop fuel' (Swap h i j) j n
  end.

(** [down(h, i0, n)]; the boolean it returns in Go is not used by [Pop], and
    its guard [j1 < 0] against overflow of [2*i + 1] has no counterpart on
    [nat]. *)
Definition down (h : AvionHeap) (i0 n : nat) : AvionHeap := down_loop n h i0 n.

(** [heap.Init]: [for i := n/2 - 1; i >= 0; i-- { down(h, i, n) }] *)
Fixpoint heap_Init_loop (k : nat) (h : AvionHeap) (n : nat) : AvionHeap :=
  match k with
  | O => h
  | S i => heap_Init_loop i (down h i n) n
  end.

Definition heap_Init (h : AvionHeap) : AvionHeap :=
  heap_Init_loop (Len h / 2) h (Len h).

(** [heap.Push]: [h.Push(x); up(h, h.Len()-1)] *)
Definition heap_Push (h : AvionHeap) (x : Avion) : AvionHeap :=
  let h1 := Push h x in up h1 (Len h1 - 1).

(** [heap.Pop]: [n := h.Len() - 1; h.Swap(0, n); down(h, 0, n); return h.Pop()].
    On an empty heap [Swap(0, -1)] panics: [None]. *)
Definition heap_Pop (h : AvionHeap) : option (Avion * AvionHeap) :=
  match h with
  | [] => None
  | _ => let n := (Len h - 1)%nat in Pop (down (Swap h 0 n) 0 n)
  end.

(** ** Package-level state *)

Record Globals := mkGlobals {
  msg : string;
  estadoActual : Z;
  colaAviones : AvionHeap;
  procesar : bool;
  detenerProceso : bool
}.

Definition set_msg (m : string) (g : Globals) : Globals :=
  mkGlobals m (estadoActual g) (colaAviones g) (procesar g) (detenerProceso g).
Definition set_cola (q : AvionHeap) (g : Globals) : Globals :=
  mkGlobals (msg g) (estadoActual g) q (procesar g) (detenerProceso g).
Definition set_detener (b : bool) (g : Globals) : Globals :=
  mkGlobals (msg g) (estadoActual g) (colaAviones g) (procesar g) b.

(** Standard output: one entry per [fmt.Print*] call. *)
Abbreviation Salida := (list string).

Definition nl : string := String (ascii_of_nat 10) EmptyString.

(** ** Priority and eligibility rules *)

(** [calcularPrioridad]; the state it switches on is the global
    [estadoActual], passed here as [estado]. *)
Definition calcularPrioridad (estado : Z) (avion : Avion) : Z :=
  if decide (estado = 1) then
    if decide (categoria avion = "A") then 1 else 0
  else if decide (estado = 2) then
    if decide (categoria avion = "B") then 1 else 0
  else if decide (estado = 3) then
    if decide (categoria avion = "C") then 1 else 0
  else if decide (estado = 4) then
    if decide (categoria avion = "A") then 2 else 0
  else if decide (estado = 5) then
    if decide (categoria avion = "B") then 2 else 0
  else if decide (estado = 6) then
    if decide (categoria avion = "C") then 2 else 0
  else 0.

Definition categoriaEstado (estado : Z) : string :=
  if decide (estado = 1) then "A"
  else if decide (estado = 2) then "B"
  else if decide (estado = 3) then "C"
  else "".

Definition esCategoriaValida (estado : Z) (avion : Avion) : bool :=
  if decide (estado = 1) then bool_decide (categoria avion = "A")
  else if decide (estado = 2) then bool_decide (categoria avion = "B")
  else if decide (estado = 3) then bool_decide (categoria avion = "C")
  else true.

(** ** Re-prioritisation and the state machine *)

Definition con_prioridad (p : Z) (a : Avion) : Avion :=
  mkAvion (id a) (categoria a) (numPasajeros a) p.

Definition recalcular (estado : Z) (a : Avion) : Avion :=
  con_prioridad (calcularPrioridad estado a) a.

(** The loop of [reordenarCola]: [for colaAviones.Len() > 0 { pop;
    recompute; push into nuevaCola }].  Every turn shortens [cola] by one,
    so [Len cola] turns are enough. *)
Fixpoint reordenar_loop (fuel : nat) (estado : Z) (cola nueva : AvionHeap)
  : AvionHeap * AvionHeap :=
  match fuel with
  | O => (cola, nueva)
  | S fuel' =>
      match heap_Pop cola with
      | None => (cola, nueva)
      | Some (avion, cola') =>
          reordenar_loop fuel' estado cola' (heap_Push nueva (recalcular estado avion))
      end
  end.

Definition reordenarCola (g : Globals) : Globals :=
  set_cola (snd (reordenar_loop (Len (colaAviones g)) (estadoActual g)
                                (colaAviones g) [])) g.

Definition actualizarEstado (estado : Z) (g : Globals) : Globals * Salida :=
  if bool_decide (estado = 7) || bool_decide (estado = 8) then
    (g, ["Estado 7 u 8 recibido, se mantiene el estado actual: "
           +:+ pretty (estadoActual g) +:+ nl])
  else
    let g1 := mkGlobals (msg g) estado (colaAviones g)
                        (bool_decide (1 ≤ estado) && bool_decide (estado ≤ 6))
                        false in
    let out := ["Estado actualizado a: " +:+ pretty (estadoActual g1) +:+ " "] in
    if procesar g1 then (reordenarCola g1, out) else (g1, out).

(** ** The dispatcher *)

(** What one turn of the loop of [procesarCola] did while holding [mu]. *)
Inductive Turno :=
  | Espera                 (* unlocked, slept one second, [continue] *)
  | Agotado (a : Avion)    (* popped [a], pushed it back, set the flag *)
  | Pista (a : Avion).     (* popped [a]; [usarPista(a)] follows *)

(** One turn of [for { ... }] in [procesarCola], from [mu.Lock()] to the
    matching [mu.Unlock()]. *)
Definition procesarCola_turno (g : Globals) : Globals * Salida * Turno :=
  if detenerProceso g then (g, [], Espera)
  else if negb (procesar g) || (Len (colaAviones g) =? 0)%nat then (g, [], Espera)
  else
    match heap_Pop (colaAviones g) with
    | None => (g, [], Espera)  (* not reached: the queue is not empty *)
    | Some (avion, cola') =>
        if bool_decide (1 ≤ estadoActual g) && bool_decide (estadoActual g ≤ 3)
           && negb (esCategoriaValida (estadoActual g) avion)
        then
          (set_detener true (set_cola (heap_Push cola' avion) g),
           ["Todos los aviones de la categoría "
              +:+ categoriaEstado (estadoActual g)
              +:+ " han sido procesados." +:+ nl],
           Agotado avion)
        else (set_cola cola' g, [], Pista avion)
    end.

(** ** Random numbers ([math/rand])

    The generator is a list of the raw values that successive calls of
    [Int31] return.  [Intn n] is [Int31n]: a mask when [n] is a power of two,
    rejection sampling otherwise.  [None]: [n <= 0] (a panic), or the list
    ran out. *)
Abbreviation Fuente := (list Z).

Fixpoint Int31n_rechazo (max n : Z) (src : Fuente) : option (Z * Fuente) :=
  match src with
  | [] => None
  | v :: src' =>
      if bool_decide (v > max) then Int31n_rechazo max n src'
      else Some (v `mod` n, src')
  end.

Definition Intn (n : Z) (src : Fuente) : option (Z * Fuente) :=
  if bool_decide (n ≤ 0) then None
  else if bool_decide (Z.land n (n - 1) = 0) then
    match src with
    | [] => None
    | v :: src' => Some (Z.land v (n - 1), src')
    end
  else Int31n_rechazo (2 ^ 31 - 1 - (2 ^ 31) `mod` n) n src.

(** Seconds slept in [usarPista]: [time.Duration(rand.Intn(4)) * time.Second],
    as a function of the raw value drawn. *)
Definition usarPista_duracion (v : Z) : option Z := fst <$> Intn 4 [v].

(** ** [init] *)

(** [for i := 1; i <= 10; i++ { three heap.Push }] *)
Fixpoint init_loop (k : nat) (i : Z) (cola : AvionHeap) (src : Fuente)
  : option (AvionHeap * Fuente) :=
  match k with
  | O => Some (cola, src)
  | S k' =>
      '(ra, src1) ← Intn 50 src;
      let cola1 := heap_Push cola (mkAvion i "A" (ra + 101) 0) in
      '(rb, src2) ← Intn 51 src1;
      let cola2 := heap_Push cola1 (mkAvion (i + 10) "B" (rb + 50) 0) in
      '(rc, src3) ← Intn 50 src2;
      let cola3 := heap_Push cola2 (mkAvion (i + 20) "C" (rc + 1) 0) in
      init_loop k' (i + 1) cola3 src3
  end.

Definition init_globals (src : Fuente) : option Globals :=
  '(cola, _) ← init_loop 10 1 (heap_Init []) src;
  Some (mkGlobals "" 0 cola false false).

(** ** The incoming text: [strings.TrimSpace] and [strconv.Atoi] *)

Definition runa (bs : list N) : list ascii := ascii_of_N <$> bs.

(** The UTF-8 encodings of the runes for which [unicode.IsSpace] holds:
    tab, LF, VT, FF, CR, space, U+0085, U+00A0, U+1680, U+2000..U+200A,
    U+2028, U+2029, U+202F, U+205F, U+3000. *)
Definition espacios : list (list ascii) :=
  [ runa [9%N]; runa [10%N]; runa [11%N]; runa [12%N]; runa [13%N]; runa [32%N];
    runa [194%N; 133%N]; runa [194%N; 160%N];
    runa [225%N; 154%N; 128%N];
    runa [226%N; 128%N; 128%N]; runa [226%N; 128%N; 129%N];
    runa [226%N; 128%N; 130%N]; runa [226%N; 128%N; 131%N];
    runa [226%N; 128%N; 132%N]; runa [226%N; 128%N; 133%N];
    runa [226%N; 128%N; 134%N]; runa [226%N; 128%N; 135%N];
    runa [226%N; 128%N; 136%N]; runa [226%N; 128%N; 137%N];
    runa [226%N; 128%N; 138%N];
    runa [226%N; 128%N; 168%N]; runa [226%N; 128%N; 169%N];
    runa [226%N; 128%N; 175%N];
    runa [226%N; 129%N; 159%N];
    runa [227%N; 128%N; 128%N] ].

Fixpoint sin_prefijo (t s : list ascii) : option (list ascii) :=
  match t, s with
  | [], _ => Some s
  | c :: t', d :: s' => if decide (c = d) then sin_prefijo t' s' else None
  | _ :: _, [] => None
  end.

(** Drops one leading space rune, if there is one. *)
Fixpoint sin_espacio (toks : list (list ascii)) (s : list ascii)
  : option (list ascii) :=
  match toks with
  | [] => None
  | t :: toks' =>
      match sin_prefijo t s with
      | Some s' => Some s'
      | None => sin_espacio toks' s
      end
  end.

Fixpoint recortar (fuel : nat) (toks : list (list ascii)) (s : list ascii)
  : list ascii :=
  match fuel with
  | O => s
  | S fuel' =>
      match sin_espacio toks s with
      | Some s' => recortar fuel' toks s'
      | None => s
      end
  end.

Definition TrimLeft (s : list ascii) : list ascii :=
  recortar (length s) espacios s.

(** The same from the end: the last rune of [s] is a space exactly when the
    reversed bytes start with the reversed encoding. *)
Definition TrimRight (s : list ascii) : list ascii :=
  reverse (recortar (length s) (reverse <$> espacios) (reverse s)).

Definition TrimSpace (s : string) : string :=
  string_of_list_ascii (TrimRight (TrimLeft (list_ascii_of_string s))).

Definition digito (c : ascii) : option Z :=
  let n := Z.of_N (N_of_ascii c) in
  if bool_decide (48 ≤ n) && bool_decide (n ≤ 57) then Some (n - 48) else None.

Fixpoint digitos (acc : Z) (s : string) : option Z :=
  match s with
  | EmptyString => Some acc
  | String c s' => d ← digito c; digitos (acc * 10 + d) s'
  end.

(** [strconv.Atoi]: an optional sign, then one or more decimal digits, and
    the value must fit Go's 64-bit [int]; anything else is an error. *)
Definition Atoi (s : string) : option Z :=
  match s with
  | EmptyString => None
  | String c s' =>
      let neg := bool_decide (c = "-"%char) in
      let cuerpo := if neg || bool_decide (c = "+"%char) then s' else s in
      match cuerpo with
      | EmptyString => None
      | _ =>
          n ← digitos 0 cuerpo;
          let v := if neg then - n else n in
          if bool_decide (- 2 ^ 63 ≤ v) && bool_decide (v < 2 ^ 63)
          then Some v else None
      end
  end.

(** ** Reading the messages *)

Definition descripciones : gmap Z string :=
  list_to_map
    [ (0, "Aeropuerto inactivo");
      (1, "Solo categoría A");
      (2, "Solo categoría B");
      (3, "Solo categoría C");
      (4, "Prioridad categoría A");
      (5, "Prioridad categoría B");
      (6, "Prioridad categoría C");
      (9, "Aeropuerto cerrado temporalmente") ].

Definition descripcionEstado (estado : Z) : Salida :=
  match descripciones !! estado with
  | Some desc => ["(" +:+ desc +:+ ")" +:+ nl]
  | None => []
  end.

(** The body of the loop of [leerMensajes] after a successful [conn.Read]
    that returned the bytes [raw] ([string(buf[:n])]). *)
Definition leerMensajes_lectura (raw : string) (g : Globals) : Globals * Salida :=
  if bool_decide (0 < String.length raw)%nat then
    let g1 := set_msg (TrimSpace raw) g in
    match Atoi (msg g1) with
    | Some estado =>
        let '(g2, out) := actualizarEstado estado g1 in
        (g2, out ++ descripcionEstado estado)
    | None => (g1, [msg g1 +:+ nl])
    end
  else (g, []).

(** ** The whole program as a transition system

    [pistasDisponibles] is a buffered channel of capacity 3 whose elements
    are [struct{}{}]; each goroutine running [procesarCola] is at one of
    three points. *)
Definition capacidad : nat := 3.

Abbreviation Canal := (list unit).

(** [c <- struct{}{}]: blocks ([None]) while the buffer is full. *)
Definition enviar (c : Canal) : option Canal :=
  if bool_decide (length c < capacidad)%nat then Some (c ++ [tt]) else None.

(** [<-c]: blocks ([None]) while the buffer is empty. *)
Definition recibir (c : Canal) : option Canal :=
  match c with
  | [] => None
  | _ :: c' => Some c'
  end.

Inductive Punto :=
  | EnBucle                       (* in the loop of [procesarCola], outside [usarPista] *)
  | Reservando (a : Avion)        (* in [usarPista], at [<-pistasDisponibles] *)
  | Usando (a : Avion) (d : Z).   (* holds a runway for [d] seconds *)

Record Sistema := mkSistema {
  globales : Globals;
  pistasDisponibles : Canal;
  despachadores : list Punto
}.

(** [init]: three runways are put in the channel, the queue is filled; no
    goroutine runs yet. *)
Definition init (src : Fuente) : option Sistema :=
  g ← init_globals src;
  c1 ← enviar []; c2 ← enviar c1; c3 ← enviar c2;
  Some (mkSistema g c3 []).

Inductive Etiqueta :=
  | Conectar                      (* [main]: [go procesarCola()] *)
  | Recibir (raw : string)        (* [leerMensajes]: one [conn.Read] *)
  | Girar (i : nat)               (* goroutine [i]: one locked turn of the loop *)
  | Reservar (i : nat) (v : Z)    (* goroutine [i]: takes a runway, draws [v] *)
  | Liberar (i : nat).            (* goroutine [i]: gives the runway back *)

Inductive Evento :=
  | EvConectar
  | EvMensaje (out : Salida)
  | EvTurno (i : nat) (out : Salida) (t : Turno)
  | EvReserva (i : nat) (a : Avion) (d : Z) (out : Salida)
  | EvLibera (i : nat) (a : Avion) (out : Salida).

Definition texto_avion (a : Avion) (resto : string) : string :=
  "Avión " +:+ pretty (id a) +:+ " (" +:+ categoria a +:+ ") " +:+ resto +:+ nl.

(** One atomic step; [None] when the step cannot be taken (no such
    goroutine, it is at another point, or it blocks on the channel). *)
Definition paso (e : Etiqueta) (s : Sistema) : option (Sistema * Evento) :=
  match e with
  | Conectar =>
      Some (mkSistema (globales s) (pistasDisponibles s) (despachadores s ++ [EnBucle]),
            EvConectar)
  | Recibir raw =>
      let '(g, out) := leerMensajes_lectura raw (globales s) in
      Some (mkSistema g (pistasDisponibles s) (despachadores s), EvMensaje out)
  | Girar i =>
      match despachadores s !! i with
      | Some EnBucle =>
          let '(g, out, t) := procesarCola_turno (globales s) in
          let p := match t with Pista a => Reservando a | _ => EnBucle end in
          Some (mkSistema g (pistasDisponibles s) (<[i := p]> (despachadores s)),
                EvTurno i out t)
      | _ => None
      end
  | Reservar i v =>
      match despachadores s !! i with
      | Some (Reservando a) =>
          c ← recibir (pistasDisponibles s);
          d ← usarPista_duracion v;
          Some (mkSistema (globales s) c (<[i := Usando a d]> (despachadores s)),
                EvReserva i a d [texto_avion a "está usando una pista"])
      | _ => None
      end
  | Liberar i =>
      match despachadores s !! i with
      | Some (Usando a d) =>
          c ← enviar (pistasDisponibles s);
          Some (mkSistema (globales s) c (<[i := EnBucle]> (despachadores s)),
                EvLibera i a [texto_avion a "ha terminado de usar la pista"])
      | _ => None
      end
  end.

Fixpoint ejecutar (tr : list Etiqueta) (s : Sistema) : option (Sistema * list Evento) :=
  match tr with
  | [] => Some (s, [])
  | e :: tr' =>
      '(s1, ev) ← paso e s;
      '(s2, evs) ← ejecutar tr' s1;
      Some (s2, ev :: evs)
  end.

Inductive Alcanzable : Sistema → Prop :=
  | alc_init src s : init src = Some s → Alcanzable s
  | alc_paso s e s' ev : Alcanzable s → paso e s = Some (s', ev) → Alcanzable s'.

(** Runways in use: goroutines between the receive and the send. *)
Definition ocupa (p : Punto) : bool :=
  match p with Usando _ _ => true | _ => false end.

Fixpoint cuenta_ocupadas (l : list Punto) : nat :=
  match l with
  | [] => 0
  | p :: l' => ((if ocupa p then 1 else 0) + cuenta_ocupadas l')%nat
  end.

Definition pistas_ocupadas (s : Sistema) : nat :=
  cuenta_ocupadas (despachadores s).

(** The aircraft taken from the queue in a run, in order. *)
Definition extraido (ev : Evento) : option Avion :=
  match ev with
  | EvTurno _ _ (Pista a) => Some a
  | EvTurno _ _ (Agotado a) => Some a
  | _ => None
  end.

Definition extraidos (evs : list Evento) : list Avion := omap extraido evs.

(** The aircraft handed to [usarPista] in a run. *)
Definition despachado (ev : Evento) : option Avion :=
  match ev with
  | EvTurno _ _ (Pista a) => Some a
  | _ => None
  end.

Definition despachados (evs : list Evento) : list Avion := omap despachado evs.

(** ** The controller ([enaire/enaire.go])

    The second program of the repository: it sends the state codes.  Each
    function returns what it printed, the chunks it wrote to the connection
    and the seconds it slept; the readings of the clock are arguments. *)

(** [strconv.Itoa]: decimal digits, a minus sign for negative numbers. *)
Definition Itoa (n : Z) : string := pretty n.

Module Enaire.

Record Efecto := mkEfecto {
  impreso : Salida;
  enviado : list string;
  dormido : list Z
}.

Definition nada : Efecto := mkEfecto [] [] [].

Definition luego (a b : Efecto) : Efecto :=
  mkEfecto (impreso a ++ impreso b) (enviado a ++ enviado b)
           (dormido a ++ dormido b).

Definition Println (linea : string) : Efecto := mkEfecto [linea +:+ nl] [] [].
Definition Sleep (segundos : Z) : Efecto := mkEfecto [] [] [segundos].

(** [num = int(time.Now().UTC().UnixNano()) % 10; if num == 0 { num = 9 }],
    with [t] the reading of the clock; Go's [%] truncates towards zero. *)
Definition getRand (t : Z) : Z :=
  let num := Z.rem t 10 in
  if bool_decide (num = 0) then 9 else num.

Definition setSeparator : Efecto := Println "------------------".

(** Prints the message and copies [msg + "\n"] to the connection. *)
Definition Send2conn (number : Z) : Efecto :=
  let msg := Itoa number in
  luego (Println ("Msg enviado: " +:+ msg)) (mkEfecto [] [msg +:+ nl] []).

(** [addr] is [dst.RemoteAddr().String()]. *)
Definition iniciar (addr : string) : Efecto :=
  luego (Sleep 1)
 (luego setSeparator
 (luego (Println ("Iniciando operación en: " +:+ addr))
 (luego (Send2conn 0) (Sleep 1)))).

Definition terminar (addr : string) : Efecto :=
  luego setSeparator
 (luego (Send2conn 0)
 (luego (Sleep 1) (Println ("Terminando operación en: " +:+ addr)))).

(** [t1] and [t2] are the two readings of the clock, one per [getRand()]. *)
Definition operando (addr : string) (t1 t2 : Z) : Efecto :=
  luego setSeparator
 (luego (Send2conn (getRand t1))
 (luego (Println ("Operando en: " +:+ addr))
        (let tiempo := getRand t2 + 1 in
         luego (Println ("Tiempo: " +:+ Itoa tiempo +:+ "seg."))
               (Sleep tiempo)))).

(** [for i := 0; i < 10; i++ { operando(conn) }]; [reloj k] is the [k]-th
    reading of the clock. *)
Fixpoint operando_loop (n : nat) (k : nat) (addr : string) (reloj : nat → Z)
  : Efecto :=
  match n with
  | O => nada
  | S n' =>
      luego (operando addr (reloj k) (reloj (S k)))
            (operando_loop n' (S (S k)) addr reloj)
  end.

(** [main] once [net.Dial] has succeeded. *)
Definition main (addr : string) (reloj : nat → Z) : Efecto :=
  luego (iniciar addr)
 (luego (operando_loop 10 0 addr reloj) (terminar addr)).

End Enaire.


(** Bytes that cannot start or end the encoding of a space rune: the ones
    [Itoa] produces. *)
Definition de_numero (c : ascii) : bool :=
  bool_decide (c = "-"%char) || bool_decide (is_Some (digito c)).

(** ** Vocabulary for the fleet *)

(** What identifies an aircraft: everything but its priority. *)
Definition datos (a : Avion) : Z * string * Z :=
  (id a, categoria a, numPasajeros a).

(** The aircraft a goroutine holds outside the queue. *)
Definition en_vuelo (p : Punto) : list Avion :=
  match p with
  | EnBucle => []
  | Reservando a => [a]
  | Usando a _ => [a]
  end.

Fixpoint fuera_de_cola (l : list Punto) : list Avion :=
  match l with
  | [] => []
  | p :: l' => en_vuelo p ++ fuera_de_cola l'
  end.

(** Every aircraft of the system: queued, or held by a dispatcher. *)
Definition censo (s : Sistema) : list Avion :=
  colaAviones (globales s) ++ fuera_de_cola (despachadores s).

(** The aircraft that leaves the system in a step: the one whose runway is
    given back. *)
Definition liberado (ev : Evento) : list Avion :=
  match ev with
  | EvLibera _ a _ => [a]
  | _ => []
  end.

Fixpoint liberados (evs : list Evento) : list Avion :=
  match evs with
  | [] => []
  | ev :: evs' => liberado ev ++ liberados evs'
  end.

(** How [init] numbers and fills the aircraft: ids 1..10 are of category A
    with 101..150 passengers, 11..20 of category B with 50..100, 21..30 of
    category C with 1..50. *)
Definition categoria_de_id (i : Z) : string :=
  if bool_decide (i ≤ 10) then "A"
  else if bool_decide (i ≤ 20) then "B" else "C".

Definition de_la_flota (d : Z * string * Z) : Prop :=
  let '(i, cat, pax) := d in
  1 ≤ i ≤ 30 ∧ cat = categoria_de_id i ∧
  (i ≤ 10 → 101 ≤ pax ≤ 150) ∧
  (10 < i ≤ 20 → 50 ≤ pax ≤ 100) ∧
  (20 < i → 1 ≤ pax ≤ 50).

Definition flota_en_orden (ds : list (Z * string * Z)) : Prop :=
  NoDup (fst ∘ fst <$> ds) ∧ Forall de_la_flota ds.

(** The ids in the order [init] pushes them: 1, 11, 21, 2, 12, 22, ... *)
Fixpoint ids_iniciales (k : nat) (i : Z) : list Z :=
  match k with
  | O => []
  | S k' => i :: (i + 10) :: (i + 20) :: ids_iniciales k' (i + 1)
  end.

(** The largest raw value that [Intn 50] and [Intn 51] both accept. *)
Definition sorteo_maximo : Z := 2147483599.

(** Connections made in a run: each one starts a dispatcher. *)
Fixpoint conexiones (tr : list Etiqueta) : nat :=
  match tr with
  | [] => 0
  | Conectar :: tr' => S (conexiones tr')
  | _ :: tr' => conexiones tr'
  end.

(** ** Specification vocabulary *)

(** Priority stored at position [k] of the slice. *)
Definition pri (h : AvionHeap) (k : nat) : Z :=
  from_option prioridad 0 (h !! k).

Definition padre (k : nat) : nat := ((k - 1) / 2)%nat.

(** The first [n] positions are in heap order for [Less]: no element has a
    larger priority than its parent. *)
Definition monticulo_hasta (h : AvionHeap) (n : nat) : Prop :=
  ∀ k, (0 < k < n)%nat → pri h k ≤ pri h (padre k).

Definition es_monticulo (h : AvionHeap) : Prop := monticulo_hasta h (length h).

(** Heap order everywhere except between [j] and its parent (the loop
    invariant of [up]). *)
Definition casi_arriba (h : AvionHeap) (j : nat) : Prop :=
  (∀ k, (0 < k < length h)%nat → k ≠ j → pri h k ≤ pri h (padre k)) ∧
  (∀ c, (0 < c < length h)%nat → padre c = j → (0 < j)%nat →
        pri h c ≤ pri h (padre j)).

(** Heap order below [n] except between [i] and its children (the loop
    invariant of [down]). *)
Definition casi_abajo (h : AvionHeap) (i n : nat) : Prop :=
  (∀ k, (0 < k < n)%nat → padre k ≠ i → pri h k ≤ pri h (padre k)) ∧
  (∀ c, (0 < c < n)%nat → padre c = i → (0 < i)%nat →
        pri h c ≤ pri h (padre i)).

(** The larger child, as [down] picks it. *)
Definition hijo_mayor (h : AvionHeap) (i n : nat) : nat :=
  if (2 * i + 1 + 1 <? n)%nat && Less h (2 * i + 1 + 1) (2 * i + 1)
  then (2 * i + 1 + 1)%nat else (2 * i + 1)%nat.



(** A run of white space: a concatenation of encodings of space runes. *)
Definition solo_espacios (l : list ascii) : Prop :=
  ∃ ts, Forall (λ t, t ∈ espacios) ts ∧ l = concat ts.

(** [l] neither starts nor ends with a space rune. *)
Definition sin_espacios_extremos (l : list ascii) : Prop :=
  ∀ t, t ∈ espacios → ¬ t `prefix_of` l ∧ ¬ t `suffix_of` l.

(** The codes that have an entry in the map of [descripcionEstado]. *)
Definition con_descripcion (estado : Z) : Prop :=
  estado ∈ [0; 1; 2; 3; 4; 5; 6; 9].

(** What a read prints if the raw bytes themselves are given to [Atoi] and
    echoed, with no trimming: follows the wording "if it parses as an integer
    ... otherwise the line is emitted verbatim". *)
Definition salida_sin_recorte (raw : string) (g : Globals) : Salida :=
  match Atoi raw with
  | Some n => (actualizarEstado n g).2 ++ descripcionEstado n
  | None => [raw +:+ nl]
  end.

(** A read that changes the operating state: a non-empty chunk whose
    trimmed text is an integer other than 7 and 8.  A span between two state
    transitions is a run in which no label is one of these. *)
Definition cambia_estado (e : Etiqueta) : bool :=
  match e with
  | Recibir raw =>
      negb (bool_decide (raw = "")) &&
      match Atoi (TrimSpace raw) with
      | Some n => negb (bool_decide (n = 7) || bool_decide (n = 8))
      | None => false
      end
  | _ => false
  end.

Definition sin_transicion (tr : list Etiqueta) : Prop :=
  Forall (λ e, cambia_estado e = false) tr.

(** What holds of the globals in every reachable state: the queue is a heap,
    processing is enabled only in states 1..6, and in those states the
    stored priorities are the ones of the current state. *)
Definition Inv_globales (g : Globals) : Prop :=
  es_monticulo (colaAviones g) ∧
  (procesar g = true → 1 ≤ estadoActual g ≤ 6) ∧
  (1 ≤ estadoActual g ≤ 6 →
   Forall (λ a, prioridad a = calcularPrioridad (estadoActual g) a) (colaAviones g)).

Definition Inv (s : Sistema) : Prop :=
  Inv_globales (globales s) ∧
  (length (pistasDisponibles s) + pistas_ocupadas s = capacidad)%nat.

Definition anuncio_agotado (estado : Z) : string :=
  "Todos los aviones de la categoría " +:+ categoriaEstado estado
    +:+ " han sido procesados." +:+ nl.

Definition sistema_agotable : Sistema :=
  mkSistema (mkGlobals "" 1 [mkAvion 11 "B" 60 0] true false) [tt; tt; tt] [EnBucle].

(** Sample data for the closed instances below. *)
Definition cola_ejemplo : AvionHeap :=
  [ mkAvion 11 "B" 60 0; mkAvion 1 "A" 120 0; mkAvion 21 "C" 10 0 ].

Definition globals_ejemplo : Globals := mkGlobals "" 0 cola_ejemplo false false.

Definition fuente_ejemplo : Fuente := replicate 30 0.

(** A start of the program, two reads later (state 4), and a run from there
    without a state transition. *)
Definition sistema_inicial_ejemplo : Sistema :=
  Eval vm_compute in
    default (mkSistema globals_ejemplo [] []) (init fuente_ejemplo).

Definition preparacion_ejemplo : list Etiqueta := [Conectar; Recibir "4"].

Definition sistema_en_4 : Sistema :=
  Eval vm_compute in
    default sistema_inicial_ejemplo
            (fst <$> ejecutar preparacion_ejemplo sistema_inicial_ejemplo).

Definition traza_ejemplo : list Etiqueta :=
  [Girar 0; Reservar 0 7; Liberar 0; Girar 0; Recibir "hola"; Recibir "7"].

Definition resultado_ejemplo : Sistema * list Evento :=
  Eval vm_compute in
    default (sistema_en_4, []) (ejecutar traza_ejemplo sistema_en_4).

Definition sistema_reservando : Sistema :=
  Eval vm_compute in
    default sistema_en_4 (fst <$> ejecutar [Girar 0] sistema_en_4).

Definition sistema_en_uso : Sistema :=
  Eval vm_compute in
    default sistema_en_4 (fst <$> ejecutar [Girar 0; Reservar 0 7] sistema_en_4).

(** A clock for the controller, a start in the exclusive state 1 with the
    first turn of its dispatcher, and a run of the tower that begins with the
    code 9. *)
Definition reloj_ejemplo (k : nat) : Z := 1700000000000000000 + 7 * Z.of_nat k.

Definition sistema_en_1 : Sistema :=
  Eval vm_compute in
    default sistema_inicial_ejemplo
            (fst <$> ejecutar [Conectar; Recibir "1"] sistema_inicial_ejemplo).

Definition turno_ejemplo : Sistema * Evento :=
  Eval vm_compute in
    default (sistema_en_1, EvConectar) (paso (Girar 0) sistema_en_1).

Definition traza_cierre : list Etiqueta :=
  [Recibir ("9" +:+ nl); Girar 0; Recibir "hola"; Girar 0].

Definition resultado_cierre : Sistema * list Evento :=
  Eval vm_compute in
    default (sistema_en_4, []) (ejecutar traza_cierre sistema_en_4).

(** * Verification *)

Arguments heap_Push : simpl never.
Arguments heap_Pop : simpl never.
Arguments reordenarCola : simpl never.
Arguments actualizarEstado : simpl never.
Arguments procesarCola_turno : simpl never.
Arguments leerMensajes_lectura : simpl never.
Arguments usarPista_duracion : simpl never.

(** ** Slices *)

Lemma Swap_length h i j : length (Swap h i j) = length h.
Proof.
  unfold Swap. destruct (h !! i), (h !! j); rewrite ?length_insert; done.
Qed.

Lemma Swap_perm h i j : Swap h i j ≡ₚ h.
Proof.
  unfold Swap. destruct (h !! i) as [a|] eqn:Hi, (h !! j) as [b|] eqn:Hj; try done.
  by apply Permutation_insert_swap.
Qed.

Lemma lookup_Swap h i j k :
  (i < length h)%nat → (j < length h)%nat →
  Swap h i j !! k =
    if decide (k = j) then h !! i else if decide (k = i) then h !! j else h !! k.
Proof.
  intros Hi Hj. unfold Swap.
  destruct (lookup_lt_is_Some_2 h i Hi) as [a Ha].
  destruct (lookup_lt_is_Some_2 h j Hj) as [b Hb].
  rewrite Ha, Hb. repeat case_decide; subst.
  - rewrite list_lookup_insert_eq; [done | by rewrite length_insert].
  - rewrite list_lookup_insert_ne by done.
    by rewrite list_lookup_insert_eq.
  - by rewrite !list_lookup_insert_ne by done.
Qed.

Lemma pri_Swap h i j k :
  (i < length h)%nat → (j < length h)%nat →
  pri (Swap h i j) k =
    if decide (k = j) then pri h i else if decide (k = i) then pri h j else pri h k.
Proof.
  intros Hi Hj. unfold pri. rewrite lookup_Swap by done.
  by repeat case_decide.
Qed.

Lemma Less_pri h i j :
  (i < length h)%nat → (j < length h)%nat →
  Less h i j = bool_decide (pri h i > pri h j).
Proof.
  intros Hi Hj. unfold Less, pri.
  destruct (lookup_lt_is_Some_2 h i Hi) as [a ->].
  destruct (lookup_lt_is_Some_2 h j Hj) as [b ->]. done.
Qed.

Lemma Swap_same h i : Swap h i i = h.
Proof.
  unfold Swap. destruct (h !! i) as [a|] eqn:Hi; [|done].
  rewrite list_insert_insert_eq. by apply list_insert_id.
Qed.

Lemma Pop_Some h x h' :
  Pop h = Some (x, h') ↔ h = h' ++ [x].
Proof.
  unfold Pop. split.
  - destruct (last h) as [y|] eqn:Hl; [|done].
    intros [= <- <-]. apply last_Some in Hl as [l ->].
    rewrite length_app. simpl.
    replace (length l + 1 - 1)%nat with (length l) by lia.
    by rewrite take_app_length.
  - intros ->. rewrite last_snoc, length_app. simpl.
    replace (length h' + 1 - 1)%nat with (length h') by lia.
    by rewrite take_app_length.
Qed.

(** ** The sifting loops *)

Lemma up_loop_S fuel h j :
  up_loop (S fuel) h j =
    if (padre j =? j)%nat || negb (Less h j (padre j)) then h
    else up_loop fuel (Swap h (padre j) j) (padre j).
Proof. done. Qed.

Lemma padre_lt k : (0 < k)%nat → (padre k < k)%nat.
Proof. unfold padre. lia. Qed.

Lemma padre_0 k : padre k = k → k = 0%nat.
Proof. unfold padre. lia. Qed.

Lemma up_loop_length fuel : ∀ h j, length (up_loop fuel h j) = length h.
Proof.
  induction fuel as [|fuel IH]; intros h j; [done|].
  rewrite up_loop_S. destruct (_ || _); [done|]. by rewrite IH, Swap_length.
Qed.

Lemma up_loop_perm fuel : ∀ h j, up_loop fuel h j ≡ₚ h.
Proof.
  induction fuel as [|fuel IH]; intros h j; [done|].
  rewrite up_loop_S. destruct (_ || _); [done|]. by rewrite IH, Swap_perm.
Qed.

(** The fuel does not matter once it exceeds [j]: the loop leaves through
    one of its [break]s. *)
Lemma up_loop_fuel f1 : ∀ f2 h j,
  (j < f1)%nat → (j < f2)%nat → up_loop f1 h j = up_loop f2 h j.
Proof.
  induction f1 as [|f1 IH]; intros f2 h j H1 H2; [lia|].
  destruct f2 as [|f2]; [lia|]. rewrite !up_loop_S.
  destruct (Nat.eqb_spec (padre j) j) as [Heq|Hne]; [done|]. simpl.
  destruct (negb _); [done|].
  assert (padre j < j)%nat by (apply padre_lt; unfold padre in Hne; lia).
  apply IH; lia.
Qed.

Lemma up_loop_ok fuel : ∀ h j,
  (j < fuel)%nat → (j < length h)%nat → casi_arriba h j →
  es_monticulo (up_loop fuel h j).
Proof.
  induction fuel as [|fuel IH]; intros h j Hf Hj [H1 H2]; [lia|].
  rewrite up_loop_S.
  destruct (Nat.eqb_spec (padre j) j) as [Heq|Hne]; simpl.
  { intros k Hk. apply H1; [done|]. apply padre_0 in Heq. lia. }
  assert (Hp : (padre j < j)%nat) by (apply padre_lt; unfold padre in Hne; lia).
  rewrite Less_pri by lia.
  case_bool_decide as Hless; simpl.
  2:{ intros k Hk. destruct (decide (k = j)) as [->|]; [lia|]. by apply H1. }
  apply IH; [lia | by rewrite Swap_length; lia |].
  split.
  - intros k Hk Hki. rewrite Swap_length in Hk.
    rewrite !pri_Swap by lia.
    assert (padre k < k)%nat by (apply padre_lt; lia).
    destruct (decide (k = j)) as [->|Hkj].
    + rewrite decide_False, decide_True by lia. lia.
    + rewrite (decide_False (P := k = padre j)) by done.
      destruct (decide (padre k = j)) as [Hpk|Hpk].
      * apply H2; [done..|lia].
      * destruct (decide (padre k = padre j)) as [Hpp|Hpp].
        -- specialize (H1 k Hk Hkj). rewrite Hpp in H1. lia.
        -- by apply H1.
  - intros c Hc Hpc Hpos. rewrite Swap_length in Hc.
    rewrite !pri_Swap by lia.
    assert (padre (padre j) < padre j)%nat by (by apply padre_lt).
    rewrite (decide_False (P := padre (padre j) = j)) by lia.
    rewrite (decide_False (P := padre (padre j) = padre j)) by lia.
    assert (Hpj : pri h (padre j) ≤ pri h (padre (padre j))) by (apply H1; lia).
    destruct (decide (c = j)) as [->|Hcj]; [done|].
    assert (padre c < c)%nat by (apply padre_lt; lia).
    rewrite decide_False by lia.
    specialize (H1 c Hc Hcj). rewrite Hpc in H1. lia.
Qed.

Lemma down_loop_S fuel h i n :
  down_loop (S fuel) h i n =
    let j1 := (2 * i + 1)%nat in
    if (n <=? j1)%nat then h
    else
      let j := if (j1 + 1 <? n)%nat && Less h (j1 + 1) j1
               then (j1 + 1)%nat else j1 in
      if negb (Less h j i) then h
      else down_loop fuel (Swap h i j) j n.
Proof. done. Qed.

Lemma padre_hijo k i : (0 < k)%nat →
  padre k = i ↔ k = (2 * i + 1)%nat ∨ k = (2 * i + 1 + 1)%nat.
Proof. unfold padre. lia. Qed.

Lemma down_loop_length fuel : ∀ h i n, length (down_loop fuel h i n) = length h.
Proof.
  induction fuel as [|fuel IH]; intros h i n; [done|].
  rewrite down_loop_S. cbv zeta.
  destruct (_ <=? _)%nat; [done|].
  destruct (negb _); [done|]. by rewrite IH, Swap_length.
Qed.

Lemma down_loop_perm fuel : ∀ h i n, down_loop fuel h i n ≡ₚ h.
Proof.
  induction fuel as [|fuel IH]; intros h i n; [done|].
  rewrite down_loop_S. cbv zeta.
  destruct (_ <=? _)%nat; [done|].
  destruct (negb _); [done|]. by rewrite IH, Swap_perm.
Qed.

Lemma hijo_mayor_spec h i n :
  (n ≤ length h)%nat → (2 * i + 1 < n)%nat →
  let j := hijo_mayor h i n in
  (j = 2 * i + 1 ∨ j = 2 * i + 1 + 1)%nat ∧ (j < n)%nat ∧
  (∀ c, (c < n)%nat → padre c = i → (0 < c)%nat → pri h c ≤ pri h j).
Proof.
  intros Hn Hj1. unfold hijo_mayor.
  assert (Hc : ∀ c, (0 < c)%nat → padre c = i →
                    c = (2 * i + 1)%nat ∨ c = (2 * i + 1 + 1)%nat)
    by (intros c ? ?; by apply padre_hijo).
  destruct (Nat.ltb_spec (2 * i + 1 + 1) n) as [Hj2|Hj2]; cbn [andb].
  - rewrite Less_pri by lia. case_bool_decide as Hl.
    + split; [lia|]. split; [done|]. intros c Hcn Hp Hpos.
      destruct (Hc c Hpos Hp) as [-> | ->]; lia.
    + split; [lia|]. split; [lia|]. intros c Hcn Hp Hpos.
      destruct (Hc c Hpos Hp) as [-> | ->]; lia.
  - split; [lia|]. split; [done|]. intros c Hcn Hp Hpos.
    destruct (Hc c Hpos Hp) as [-> | ->]; lia.
Qed.

(** The fuel does not matter once it covers the distance to [n]. *)
Lemma down_loop_fuel f1 : ∀ f2 h i n,
  (n ≤ i + f1)%nat → (n ≤ i + f2)%nat →
  down_loop f1 h i n = down_loop f2 h i n.
Proof.
  induction f1 as [|f1 IH]; intros f2 h i n H1 H2.
  - destruct f2 as [|f2]; [done|]. rewrite down_loop_S. cbv zeta.
    destruct (Nat.leb_spec n (2 * i + 1)); [done | lia].
  - destruct f2 as [|f2].
    + rewrite down_loop_S. cbv zeta.
      destruct (Nat.leb_spec n (2 * i + 1)); [done | lia].
    + rewrite !down_loop_S. cbv zeta.
      destruct (Nat.leb_spec n (2 * i + 1)); [done|].
      destruct (negb _); [done|].
      destruct (_ && _); apply IH; lia.
Qed.

Lemma down_loop_ok fuel : ∀ h i n,
  (n ≤ length h)%nat → (n ≤ i + fuel)%nat → casi_abajo h i n →
  monticulo_hasta (down_loop fuel h i n) n.
Proof.
  induction fuel as [|fuel IH]; intros h i n Hn Hf [H1 H2].
  - intros k Hk. apply H1; [done|].
    assert (padre k < k)%nat by (apply padre_lt; lia). simpl. lia.
  - rewrite down_loop_S. cbv zeta.
    destruct (Nat.leb_spec n (2 * i + 1)) as [Hle|Hlt].
    { intros k Hk. apply H1; [done|]. intros Hp.
      apply padre_hijo in Hp; lia. }
    fold (hijo_mayor h i n).
    destruct (hijo_mayor_spec h i n Hn Hlt) as (Hj & Hjn & Hmax).
    set (j := hijo_mayor h i n) in *.
    assert (Hpj : padre j = i) by (apply padre_hijo; lia).
    rewrite Less_pri by lia.
    case_bool_decide as Hless; simpl.
    2:{ intros k Hk. destruct (decide (padre k = i)) as [Hp|Hp].
        - rewrite Hp. specialize (Hmax k). lia.
        - by apply H1. }
    apply IH; [by rewrite Swap_length | lia |].
    split.
    + intros k Hk Hpk. rewrite !pri_Swap by lia.
      assert (padre k < k)%nat by (apply padre_lt; lia).
      rewrite (decide_False (P := padre k = j)) by done.
      destruct (decide (k = j)) as [->|Hkj].
      * rewrite Hpj, decide_True by done. lia.
      * destruct (decide (k = i)) as [->|Hki].
        -- rewrite decide_False by lia. apply H2; [lia | done | lia].
        -- destruct (decide (padre k = i)) as [Hp|Hp].
           ++ specialize (Hmax k). lia.
           ++ by apply H1.
    + intros c Hc Hpc Hpos. rewrite !pri_Swap by lia.
      rewrite Hpj. rewrite (decide_False (P := i = j)) by lia.
      rewrite (decide_True (P := i = i)) by done.
      assert (padre c < c)%nat by (apply padre_lt; lia).
      rewrite !decide_False by lia.
      rewrite <- Hpc. apply H1; [done | lia].
Qed.

(** Positions from [n] on are not touched by [down]. *)
Lemma down_loop_lookup_ge fuel : ∀ h i n k,
  (n ≤ length h)%nat → (i < n)%nat → (n ≤ k)%nat →
  down_loop fuel h i n !! k = h !! k.
Proof.
  induction fuel as [|fuel IH]; intros h i n k Hn Hi Hk; [done|].
  rewrite down_loop_S. cbv zeta.
  destruct (Nat.leb_spec n (2 * i + 1)) as [Hle|Hlt]; [done|].
  fold (hijo_mayor h i n).
  destruct (hijo_mayor_spec h i n Hn Hlt) as (Hj & Hjn & _).
  destruct (negb _); [done|].
  rewrite IH by (rewrite ?Swap_length; lia).
  rewrite lookup_Swap by lia. by rewrite !decide_False by lia.
Qed.

(** ** [heap.Push] and [heap.Pop] *)

Lemma monticulo_raiz_max h :
  es_monticulo h → ∀ k, (k < length h)%nat → pri h k ≤ pri h 0.
Proof.
  intros Hh k. induction (lt_wf k) as [k _ IH]. intros Hk.
  destruct (decide (k = 0%nat)) as [->|Hk0]; [done|].
  assert (padre k < k)%nat by (apply padre_lt; lia).
  specialize (Hh k). specialize (IH (padre k)). lia.
Qed.

Lemma es_monticulo_nil : es_monticulo [].
Proof. intros k. simpl. lia. Qed.

Lemma heap_Push_length h x : length (heap_Push h x) = S (length h).
Proof.
  unfold heap_Push, up, Push, Len.
  rewrite up_loop_length, length_app. simpl. lia.
Qed.

Lemma heap_Push_perm h x : heap_Push h x ≡ₚ x :: h.
Proof.
  unfold heap_Push, up, Push. rewrite up_loop_perm.
  by rewrite Permutation_app_comm.
Qed.

Lemma heap_Push_ok h x : es_monticulo h → es_monticulo (heap_Push h x).
Proof.
  intros Hh. unfold heap_Push, up, Push, Len.
  rewrite length_app. change (length [x]) with 1%nat.
  replace (length h + 1 - 1)%nat with (length h) by lia.
  apply up_loop_ok; [lia | rewrite length_app; simpl; lia |].
  split.
  - intros k Hk Hne. rewrite length_app in Hk. simpl in Hk.
    assert (padre k < k)%nat by (apply padre_lt; lia).
    unfold pri. rewrite !lookup_app_l by lia. apply Hh. lia.
  - intros c Hc Hp Hpos. rewrite length_app in Hc. simpl in Hc.
    assert (padre c < c)%nat by (apply padre_lt; lia). lia.
Qed.

(** What [heap.Pop] returns on a non-empty queue, whatever its order: the
    element at index 0, and a permutation of the others. *)
Lemma heap_Pop_Some h a0 :
  h !! 0%nat = Some a0 →
  ∃ h', heap_Pop h = Some (a0, h') ∧ h ≡ₚ a0 :: h' ∧
        S (length h') = length h ∧
        (es_monticulo h → es_monticulo h').
Proof.
  intros H0. assert (Hlen : (0 < length h)%nat) by by eapply lookup_lt_Some.
  unfold heap_Pop, Len. destruct h as [|b t] eqn:Hh; [done|]. rewrite <- Hh in *.
  clear Hh b t.
  set (n := (length h - 1)%nat).
  set (h1 := down (Swap h 0 n) 0 n).
  assert (Hl1 : length h1 = length h)
    by (unfold h1, down; by rewrite down_loop_length, Swap_length).
  assert (Hn : h1 !! n = Some a0).
  { unfold h1, down. destruct (decide (n = 0%nat)) as [Hn0|Hn0].
    - rewrite Hn0. simpl. by rewrite Swap_same.
    - rewrite down_loop_lookup_ge by (rewrite ?Swap_length; lia).
      rewrite lookup_Swap by lia. by rewrite decide_True. }
  assert (Hperm : h1 ≡ₚ h)
    by (unfold h1, down; by rewrite down_loop_perm, Swap_perm).
  assert (Hd : es_monticulo h → monticulo_hasta h1 n).
  { intros Hheap. apply down_loop_ok; [rewrite Swap_length; lia | lia |].
    split; [|lia].
    intros k Hk Hp. rewrite !pri_Swap by lia.
    assert (padre k < k)%nat by (apply padre_lt; lia).
    rewrite !decide_False by lia. apply Hheap. lia. }
  clearbody h1.
  pose proof (take_drop_middle h1 n a0 Hn) as Hsplit.
  assert (Hdrop : drop (S n) h1 = []) by (apply drop_ge; lia).
  rewrite Hdrop in Hsplit.
  exists (take n h1). split; [by apply Pop_Some|].
  split; [|split].
  - rewrite <- Hperm. set (t := take n h1) in *. rewrite <- Hsplit.
    by rewrite Permutation_app_comm.
  - rewrite length_take. lia.
  - intros Hheap k Hk. rewrite length_take in Hk.
    assert (padre k < k)%nat by (apply padre_lt; lia).
    unfold pri. rewrite !lookup_take_lt by lia. apply (Hd Hheap). lia.
Qed.

Lemma heap_Pop_None h : heap_Pop h = None ↔ h = [].
Proof.
  split; [|by intros ->].
  destruct h as [|a t]; [done|]. intros Hn.
  destruct (heap_Pop_Some (a :: t) a eq_refl) as (h' & Hp & _). congruence.
Qed.

(** On a heap, the element returned has the largest priority. *)
Lemma heap_Pop_max h a h' :
  es_monticulo h → heap_Pop h = Some (a, h') →
  Forall (λ b, prioridad b ≤ prioridad a) h'.
Proof.
  intros Hh Hp. destruct h as [|a0 t] eqn:E; [done|]. rewrite <- E in *.
  assert (H0 : h !! 0%nat = Some a0) by by rewrite E.
  destruct (heap_Pop_Some h a0 H0) as (h2 & Hp2 & Hperm & _).
  rewrite Hp in Hp2. injection Hp2 as -> ->.
  assert (Hall : Forall (λ b, prioridad b ≤ prioridad a0) h).
  { apply Forall_lookup. intros k b Hk.
    pose proof (monticulo_raiz_max h Hh k (lookup_lt_Some _ _ _ Hk)) as Hm.
    unfold pri in Hm. by rewrite Hk, H0 in Hm. }
  rewrite Hperm in Hall. by apply Forall_cons in Hall as [_ ?].
Qed.

(** ** Re-prioritisation *)



Lemma calcularPrioridad_recalcular estado estado' a :
  calcularPrioridad estado (recalcular estado' a) = calcularPrioridad estado a.
Proof. done. Qed.

Lemma recalcular_idem estado a :
  recalcular estado (recalcular estado a) = recalcular estado a.
Proof. done. Qed.

(** The loop empties the queue it is given and moves every aircraft, with
    its new priority, into the new heap. *)
Lemma reordenar_loop_spec fuel : ∀ estado cola nueva,
  (length cola ≤ fuel)%nat →
  (reordenar_loop fuel estado cola nueva).1 = [] ∧
  (reordenar_loop fuel estado cola nueva).2 ≡ₚ (recalcular estado <$> cola) ++ nueva ∧
  (es_monticulo nueva → es_monticulo (reordenar_loop fuel estado cola nueva).2).
Proof.
  induction fuel as [|fuel IH]; intros estado cola nueva Hlen.
  - destruct cola; [done | simpl in Hlen; lia].
  - destruct cola as [|a0 t] eqn:E; [done|]. rewrite <- E in *.
    assert (H0 : cola !! 0%nat = Some a0) by by rewrite E.
    destruct (heap_Pop_Some cola a0 H0) as (h' & Hp & Hperm & Hl & Hheap).
    cbn [reordenar_loop]. rewrite Hp.
    destruct (IH estado h' (heap_Push nueva (recalcular estado a0))) as (I1 & I2 & I3);
      [lia|].
    split; [done|]. split.
    + rewrite I2, heap_Push_perm, Hperm. rewrite fmap_cons.
      by rewrite <- Permutation_middle.
    + intros Hn. by apply I3, heap_Push_ok.
Qed.

Lemma reordenarCola_perm g :
  colaAviones (reordenarCola g) ≡ₚ recalcular (estadoActual g) <$> colaAviones g.
Proof.
  unfold reordenarCola, Len. simpl.
  destruct (reordenar_loop_spec (length (colaAviones g)) (estadoActual g)
              (colaAviones g) []) as (_ & Hp & _); [done|].
  by rewrite Hp, app_nil_r.
Qed.

Lemma reordenarCola_monticulo g : es_monticulo (colaAviones (reordenarCola g)).
Proof.
  unfold reordenarCola, Len. simpl.
  destruct (reordenar_loop_spec (length (colaAviones g)) (estadoActual g)
              (colaAviones g) []) as (_ & _ & Hh); [done|].
  apply Hh, es_monticulo_nil.
Qed.

(** ** [actualizarEstado] *)

Lemma actualizarEstado_78 estado g :
  estado = 7 ∨ estado = 8 →
  actualizarEstado estado g =
    (g, ["Estado 7 u 8 recibido, se mantiene el estado actual: "
           +:+ pretty (estadoActual g) +:+ nl]).
Proof.
  intros H. unfold actualizarEstado.
  destruct H as [-> | ->]; done.
Qed.

Lemma actualizarEstado_activo estado g :
  1 ≤ estado ≤ 6 →
  (actualizarEstado estado g).1 =
    reordenarCola (mkGlobals (msg g) estado (colaAviones g) true false).
Proof.
  intros H. unfold actualizarEstado.
  rewrite !bool_decide_eq_false_2 by lia. cbn [orb procesar].
  by rewrite !bool_decide_eq_true_2 by lia.
Qed.

Lemma actualizarEstado_inactivo estado g :
  estado ≠ 7 → estado ≠ 8 → ¬ (1 ≤ estado ≤ 6) →
  (actualizarEstado estado g).1 = mkGlobals (msg g) estado (colaAviones g) false false.
Proof.
  intros H7 H8 H. unfold actualizarEstado.
  rewrite !bool_decide_eq_false_2 by lia. cbn [orb procesar].
  destruct (decide (1 ≤ estado)).
  - rewrite bool_decide_eq_true_2, (bool_decide_eq_false_2 (estado ≤ 6)) by lia. done.
  - by rewrite bool_decide_eq_false_2 by lia.
Qed.

Lemma actualizarEstado_casos (estado : Z) :
  (estado = 7 ∨ estado = 8) ∨ 1 ≤ estado ≤ 6 ∨
  (estado ≠ 7 ∧ estado ≠ 8 ∧ ¬ (1 ≤ estado ≤ 6)).
Proof. lia. Qed.

Lemma actualizarEstado_cola_activo estado g :
  1 ≤ estado ≤ 6 →
  colaAviones (actualizarEstado estado g).1 ≡ₚ recalcular estado <$> colaAviones g.
Proof.
  intros H. rewrite actualizarEstado_activo by done.
  by rewrite reordenarCola_perm.
Qed.

(** ** The state machine: claims about [actualizarEstado] *)


(** C4. For [s] equal to 7 or 8, [actualizarEstado s] returns the globals it
    was given: the current state, [procesar], [detenerProceso] and the queue
    (hence every priority) are unchanged, and the only output is the line
    saying that the current state is kept. *)
Theorem C4_estado_7_u_8_no_cambia_nada (s : Z) (g : Globals) :
  s = 7 ∨ s = 8 →
  let '(g', out) := actualizarEstado s g in
  g' = g ∧
  estadoActual g' = estadoActual g ∧
  procesar g' = procesar g ∧
  detenerProceso g' = detenerProceso g ∧
  colaAviones g' = colaAviones g ∧
  out = ["Estado 7 u 8 recibido, se mantiene el estado actual: "
           +:+ pretty (estadoActual g) +:+ nl].
Proof.
  intros Hs. by rewrite actualizarEstado_78.
Qed.

(** C6. Calling [actualizarEstado s] twice in a row: the queue after the
    second call holds exactly the aircraft records, priorities included, that
    it held after the first call (as a multiset; the heap may lay them out in
    another order). *)
Theorem C6_actualizarEstado_idempotente (s : Z) (g : Globals) :
  let g1 := (actualizarEstado s g).1 in
  let g2 := (actualizarEstado s g1).1 in
  colaAviones g2 ≡ₚ colaAviones g1 ∧
  estadoActual g2 = estadoActual g1 ∧
  procesar g2 = procesar g1 ∧
  detenerProceso g2 = detenerProceso g1.
Proof.
  intros g1 g2. subst g1 g2.
  destruct (actualizarEstado_casos s) as [H78 | [Hact | (H7 & H8 & Hin)]].
  - by rewrite !actualizarEstado_78.
  - split.
    + rewrite (actualizarEstado_cola_activo s (actualizarEstado s g).1) by done.
      rewrite (actualizarEstado_cola_activo s g) by done.
      rewrite <- list_fmap_compose.
      apply Permutation_refl'. by apply list_fmap_ext.
    + by rewrite !actualizarEstado_activo.
  - by rewrite !actualizarEstado_inactivo.
Qed.

(** C7. A code outside 0..9 is stored as the current state; under that state
    [calcularPrioridad] gives 0 to every aircraft and [esCategoriaValida]
    accepts every aircraft, whatever their category. *)
Theorem C7_codigo_no_reconocido (code : Z) (g : Globals) :
  ¬ (0 ≤ code ≤ 9) →
  let g' := (actualizarEstado code g).1 in
  estadoActual g' = code ∧
  (∀ a, calcularPrioridad (estadoActual g') a = 0) ∧
  (∀ a, esCategoriaValida (estadoActual g') a = true).
Proof.
  intros Hc g'. subst g'.
  rewrite actualizarEstado_inactivo by lia. simpl.
  split; [done|]. split; intros a.
  - unfold calcularPrioridad. by rewrite !decide_False by lia.
  - unfold esCategoriaValida. by rewrite !decide_False by lia.
Qed.

(** ** [strings.TrimSpace] *)

Lemma sin_prefijo_Some t : ∀ s s', sin_prefijo t s = Some s' ↔ s = t ++ s'.
Proof.
  induction t as [|c t IH]; intros s s'; simpl.
  - split; [by intros [= ->] | by intros ->].
  - destruct s as [|d s]; [done|].
    destruct (decide (c = d)) as [->|Hne].
    + rewrite IH. split; [by intros -> | by intros [= ->]].
    + split; [done | intros [= -> _]; done].
Qed.

Lemma sin_espacio_Some toks : ∀ s s',
  sin_espacio toks s = Some s' → ∃ t, t ∈ toks ∧ s = t ++ s'.
Proof.
  induction toks as [|t toks IH]; intros s s'; simpl; [done|].
  destruct (sin_prefijo t s) as [s1|] eqn:E.
  - intros [= <-]. apply sin_prefijo_Some in E.
    exists t. split; [apply list_elem_of_here | done].
  - intros H. destruct (IH _ _ H) as (t' & Ht' & ->).
    exists t'. split; [by apply list_elem_of_further | done].
Qed.

Lemma sin_espacio_None toks : ∀ s,
  sin_espacio toks s = None → ∀ t, t ∈ toks → ¬ t `prefix_of` s.
Proof.
  induction toks as [|t0 toks IH]; intros s Hs t Ht; [by apply elem_of_nil in Ht|].
  simpl in Hs. destruct (sin_prefijo t0 s) as [s1|] eqn:E; [done|].
  apply elem_of_cons in Ht as [->|Ht]; [|by apply IH].
  intros [k ->]. by rewrite (proj2 (sin_prefijo_Some t0 (t0 ++ k) k)) in E.
Qed.

(** With fuel for every byte, [recortar] stops because no space rune is
    left in front, and what it removed is a run of space runes. *)
Lemma recortar_spec toks fuel : ∀ s,
  Forall (λ t, t ≠ []) toks → (length s ≤ fuel)%nat →
  ∃ ts, Forall (λ t, t ∈ toks) ts ∧ s = concat ts ++ recortar fuel toks s ∧
        sin_espacio toks (recortar fuel toks s) = None.
Proof.
  induction fuel as [|fuel IH]; intros s Hne Hlen.
  - destruct s; [|simpl in Hlen; lia]. exists []. simpl.
    split; [done|]. split; [done|].
    destruct (sin_espacio toks []) as [s'|] eqn:E; [|done].
    apply sin_espacio_Some in E as (t & Ht & Heq).
    symmetry in Heq. apply app_eq_nil in Heq as [-> _].
    by rewrite Forall_forall in Hne; specialize (Hne _ Ht).
  - simpl. destruct (sin_espacio toks s) as [s'|] eqn:E.
    + pose proof E as E'. apply sin_espacio_Some in E' as (t & Ht & ->).
      assert (t ≠ []) by (rewrite Forall_forall in Hne; by apply Hne).
      destruct (IH s' Hne) as (ts & Hts & Heq & Hnone).
      { rewrite length_app in Hlen. destruct t; [done|]. simpl in Hlen. lia. }
      exists (t :: ts). split; [by constructor|]. split; [|done].
      simpl. rewrite <- app_assoc. by rewrite <- Heq.
    + exists []. by split.
Qed.

Lemma espacios_no_vacios : Forall (λ t : list ascii, t ≠ []) espacios.
Proof. unfold espacios. repeat constructor; done. Qed.

Lemma espacios_rev_no_vacios :
  Forall (λ t : list ascii, t ≠ []) (reverse <$> espacios).
Proof. unfold espacios. repeat constructor; done. Qed.

Lemma reverse_concat (ts : list (list ascii)) :
  reverse (concat ts) = concat (reverse (reverse <$> ts)).
Proof.
  induction ts as [|t ts IH]; [done|].
  rewrite fmap_cons, reverse_cons, concat_app. cbn [concat].
  by rewrite reverse_app, IH, app_nil_r.
Qed.

Lemma TrimLeft_spec s :
  ∃ pre, solo_espacios pre ∧ s = pre ++ TrimLeft s ∧
         ∀ t, t ∈ espacios → ¬ t `prefix_of` TrimLeft s.
Proof.
  unfold TrimLeft.
  destruct (recortar_spec espacios (length s) s espacios_no_vacios)
    as (ts & Hts & Heq & Hnone); [done|].
  exists (concat ts). split; [by exists ts|]. split; [done|].
  by apply sin_espacio_None.
Qed.

Lemma TrimRight_spec s :
  ∃ suf, solo_espacios suf ∧ s = TrimRight s ++ suf ∧
         ∀ t, t ∈ espacios → ¬ t `suffix_of` TrimRight s.
Proof.
  unfold TrimRight.
  destruct (recortar_spec (reverse <$> espacios) (length s) (reverse s)
              espacios_rev_no_vacios) as (ts & Hts & Heq & Hnone);
    [by rewrite length_reverse|].
  set (r := recortar (length s) (reverse <$> espacios) (reverse s)) in *.
  exists (reverse (concat ts)). split; [|split].
  - exists (reverse (reverse <$> ts)). split; [|apply reverse_concat].
    apply Forall_forall. intros t Ht.
    apply elem_of_reverse, list_elem_of_fmap in Ht as (t' & -> & Ht').
    rewrite Forall_forall in Hts. specialize (Hts _ Ht').
    apply list_elem_of_fmap in Hts as (t0 & -> & Ht0).
    by rewrite reverse_involutive.
  - rewrite <- reverse_app, <- Heq. by rewrite reverse_involutive.
  - intros t Ht [k Hk].
    apply (sin_espacio_None _ _ Hnone (reverse t)).
    + apply list_elem_of_fmap. by exists t.
    + exists (reverse k). rewrite <- reverse_app, <- Hk.
      by rewrite reverse_involutive.
Qed.

(** [TrimSpace] removes a run of space runes at each end and leaves a text
    that neither starts nor ends with one. *)
Lemma TrimSpace_spec raw :
  ∃ pre suf,
    list_ascii_of_string raw =
      pre ++ list_ascii_of_string (TrimSpace raw) ++ suf ∧
    solo_espacios pre ∧ solo_espacios suf ∧
    sin_espacios_extremos (list_ascii_of_string (TrimSpace raw)).
Proof.
  unfold TrimSpace. rewrite list_ascii_of_string_of_list_ascii.
  destruct (TrimLeft_spec (list_ascii_of_string raw)) as (pre & Hpre & Heq1 & Hp).
  destruct (TrimRight_spec (TrimLeft (list_ascii_of_string raw)))
    as (suf & Hsuf & Heq2 & Hs).
  exists pre, suf. split; [by rewrite <- Heq2|]. split; [done|]. split; [done|].
  intros t Ht. split; [|by apply Hs].
  intros [k Hk]. apply (Hp t Ht). exists (k ++ suf).
  rewrite Heq2 at 1. rewrite Hk. by rewrite <- app_assoc.
Qed.

(** ** Reading the messages *)

Lemma descripcionEstado_sin_entrada n :
  ¬ con_descripcion n → descripcionEstado n = [].
Proof.
  unfold con_descripcion. rewrite !elem_of_cons, elem_of_nil. intros Hn.
  unfold descripcionEstado, descripciones. cbn [list_to_map foldr uncurry fst snd].
  rewrite !lookup_insert_ne by lia. by rewrite lookup_empty.
Qed.

Lemma descripcionEstado_con_entrada n :
  con_descripcion n → ∃ desc, descripcionEstado n = ["(" +:+ desc +:+ ")" +:+ nl].
Proof.
  unfold con_descripcion. rewrite !elem_of_cons, elem_of_nil.
  intros [->|[->|[->|[->|[->|[->|[->|[->|[]]]]]]]]]; eexists; reflexivity.
Qed.

Lemma descripcionEstado_emite n :
  descripcionEstado n ≠ [] ↔ con_descripcion n.
Proof.
  split.
  - intros Hne. destruct (decide (con_descripcion n)) as [|Hn]; [done|].
    by apply descripcionEstado_sin_entrada in Hn.
  - intros Hn. destruct (descripcionEstado_con_entrada n Hn) as [desc ->]. done.
Qed.

Lemma actualizarEstado_msg estado g : msg (actualizarEstado estado g).1 = msg g.
Proof.
  destruct (actualizarEstado_casos estado) as [H78 | [Hact | (H7 & H8 & Hin)]].
  - by rewrite actualizarEstado_78.
  - by rewrite actualizarEstado_activo.
  - by rewrite actualizarEstado_inactivo.
Qed.

Lemma leerMensajes_lectura_eq raw g :
  raw ≠ "" →
  leerMensajes_lectura raw g =
    match Atoi (TrimSpace raw) with
    | Some n =>
        ((actualizarEstado n (set_msg (TrimSpace raw) g)).1,
         (actualizarEstado n (set_msg (TrimSpace raw) g)).2 ++ descripcionEstado n)
    | None => (set_msg (TrimSpace raw) g, [TrimSpace raw +:+ nl])
    end.
Proof.
  intros Hne. unfold leerMensajes_lectura.
  rewrite bool_decide_eq_true_2 by (destruct raw; [done | simpl; lia]).
  cbn [msg set_msg].
  destruct (Atoi (TrimSpace raw)) as [n|]; [|done].
  by destruct (actualizarEstado n _).
Qed.

(** C8, as amended.  For every non-empty chunk [raw] read from the
    connection, with [m] the chunk without its leading and trailing white
    space: if [m] parses as an integer [n], [actualizarEstado n] is called
    and then the description of [n] is printed exactly when [n] is one of
    0,1,2,3,4,5,6,9; if [m] does not parse, [m] followed by a newline is
    printed and the globals other than [msg] are untouched.  The function is
    total: no error arises. *)
Theorem C8_lectura_de_un_mensaje (raw : string) (g : Globals) :
  raw ≠ "" →
  let m := TrimSpace raw in
  match Atoi m with
  | Some n =>
      leerMensajes_lectura raw g =
        ((actualizarEstado n (set_msg m g)).1,
         (actualizarEstado n (set_msg m g)).2 ++ descripcionEstado n) ∧
      (descripcionEstado n ≠ [] ↔ con_descripcion n) ∧
      (¬ con_descripcion n → descripcionEstado n = [])
  | None =>
      leerMensajes_lectura raw g = (set_msg m g, [m +:+ nl])
  end.
Proof.
  intros Hne m. subst m. rewrite (leerMensajes_lectura_eq raw g Hne).
  destruct (Atoi (TrimSpace raw)) as [n|]; [|done].
  split; [done|]. split; [apply descripcionEstado_emite|].
  apply descripcionEstado_sin_entrada.
Qed.

(** C10. The text given to [Atoi] is [TrimSpace raw]: the chunk without a
    run of space runes at each end, itself neither starting nor ending with
    one.  So a read of [" 5 "] or of ["5"] followed by a newline, which
    [Atoi] rejects as they are, calls [actualizarEstado 5] and is not echoed
    as text. *)
Theorem C10_recorte_antes_de_Atoi (raw : string) (g : Globals) :
  raw ≠ "" →
  (∃ pre suf,
     list_ascii_of_string raw =
       pre ++ list_ascii_of_string (TrimSpace raw) ++ suf ∧
     solo_espacios pre ∧ solo_espacios suf ∧
     sin_espacios_extremos (list_ascii_of_string (TrimSpace raw))) ∧
  msg (leerMensajes_lectura raw g).1 = TrimSpace raw ∧
  (∀ n, Atoi (TrimSpace raw) = Some n →
        leerMensajes_lectura raw g =
          ((actualizarEstado n (set_msg (TrimSpace raw) g)).1,
           (actualizarEstado n (set_msg (TrimSpace raw) g)).2
             ++ descripcionEstado n)) ∧
  (TrimSpace " 5 " = "5" ∧ TrimSpace ("5" +:+ nl) = "5" ∧
   Atoi "5" = Some 5 ∧ Atoi " 5 " = None ∧ Atoi ("5" +:+ nl) = None ∧
   (leerMensajes_lectura " 5 " g).1 = (actualizarEstado 5 (set_msg "5" g)).1 ∧
   (leerMensajes_lectura ("5" +:+ nl) g).1 = (actualizarEstado 5 (set_msg "5" g)).1 ∧
   (leerMensajes_lectura " 5 " g).2 ≠ [" 5 " +:+ nl] ∧
   (leerMensajes_lectura ("5" +:+ nl) g).2 ≠ ["5" +:+ nl +:+ nl]).
Proof.
  intros Hne. split; [apply TrimSpace_spec|]. split; [|split].
  - rewrite leerMensajes_lectura_eq by done.
    destruct (Atoi (TrimSpace raw)); [|done]. cbn [fst].
    by rewrite actualizarEstado_msg.
  - intros n Hn. rewrite leerMensajes_lectura_eq by done. by rewrite Hn.
  - assert (E1 : TrimSpace " 5 " = "5") by reflexivity.
    assert (E2 : TrimSpace ("5" +:+ nl) = "5") by reflexivity.
    assert (E3 : Atoi "5" = Some 5) by reflexivity.
    rewrite !leerMensajes_lectura_eq by done. rewrite E1, E2, E3. cbn [fst snd].
    repeat split; try reflexivity.
    + intros H. apply (f_equal length) in H.
      rewrite length_app in H. simpl in H.
      destruct (actualizarEstado_casos 5) as [?|[?|?]]; [lia| |lia].
      revert H. unfold actualizarEstado. simpl. done.
    + intros H. apply (f_equal length) in H.
      rewrite length_app in H. revert H.
      unfold actualizarEstado. simpl. done.
Qed.

(** ** The time a runway is held *)

Lemma usarPista_duracion_eq v : usarPista_duracion v = Some (Z.land v 3).
Proof. reflexivity. Qed.

(** C9, as amended.  The number of seconds drawn in [usarPista] is
    [rand.Intn(4)]: it lies in the half-open range from 0 to 4, whatever the
    generator yields; so does the duration in the event of every step in
    which a dispatcher takes a runway; and each of 0, 1, 2 and 3 occurs. *)
Theorem C9_duracion_de_uso (v : Z) :
  (∃ d, usarPista_duracion v = Some d ∧ 0 ≤ d < 4) ∧
  (∀ s i s' ev, paso (Reservar i v) s = Some (s', ev) →
     ∃ a d out, ev = EvReserva i a d out ∧
                usarPista_duracion v = Some d ∧ 0 ≤ d < 4) ∧
  usarPista_duracion 0 = Some 0 ∧ usarPista_duracion 1 = Some 1 ∧
  usarPista_duracion 2 = Some 2 ∧ usarPista_duracion 3 = Some 3.
Proof.
  assert (Hd : 0 ≤ Z.land v 3 < 4).
  { change 3 with (Z.ones 2). rewrite Z.land_ones by lia.
    apply Z.mod_pos_bound. lia. }
  split; [by exists (Z.land v 3)|]. split; [|done].
  intros s i s' ev. unfold paso.
  destruct (despachadores s !! i) as [[|a|]|]; try done.
  destruct (recibir (pistasDisponibles s)) as [c|]; [|done]. cbn [mbind option_bind].
  rewrite usarPista_duracion_eq. cbn [mbind option_bind].
  intros [= _ <-]. by exists a, (Z.land v 3), [texto_avion a "está usando una pista"].
Qed.

(** ** One turn of the dispatcher *)

Lemma heap_Pop_inv h a h' :
  heap_Pop h = Some (a, h') →
  h !! 0%nat = Some a ∧ h ≡ₚ a :: h' ∧ S (length h') = length h ∧
  (es_monticulo h →
   es_monticulo h' ∧ Forall (λ b, prioridad b ≤ prioridad a) h).
Proof.
  intros Hp. destruct h as [|a0 t] eqn:E; [done|]. rewrite <- E in *.
  assert (H0 : h !! 0%nat = Some a0) by by rewrite E.
  destruct (heap_Pop_Some h a0 H0) as (h2 & Hp2 & Hperm & Hl & Hh).
  rewrite Hp in Hp2. injection Hp2 as <- <-.
  split; [done|]. split; [done|]. split; [done|].
  intros Hm. split; [by apply Hh|].
  rewrite Hperm. constructor; [lia|]. by eapply heap_Pop_max.
Qed.

Lemma procesarCola_turno_casos g :
  (procesarCola_turno g = (g, [], Espera) ∧
   (detenerProceso g = true ∨ procesar g = false ∨ colaAviones g = [])) ∨
  (∃ a cola',
     heap_Pop (colaAviones g) = Some (a, cola') ∧
     detenerProceso g = false ∧ procesar g = true ∧
     1 ≤ estadoActual g ≤ 3 ∧ esCategoriaValida (estadoActual g) a = false ∧
     procesarCola_turno g =
       (set_detener true (set_cola (heap_Push cola' a) g),
        [anuncio_agotado (estadoActual g)], Agotado a)) ∨
  (∃ a cola',
     heap_Pop (colaAviones g) = Some (a, cola') ∧
     detenerProceso g = false ∧ procesar g = true ∧
     (¬ (1 ≤ estadoActual g ≤ 3) ∨ esCategoriaValida (estadoActual g) a = true) ∧
     procesarCola_turno g = (set_cola cola' g, [], Pista a)).
Proof.
  unfold procesarCola_turno.
  destruct (detenerProceso g) eqn:Hd; [left; auto|].
  destruct (procesar g) eqn:Hp; cbn [negb orb]; [|left; auto].
  destruct (Nat.eqb_spec (Len (colaAviones g)) 0) as [Hz|Hnz].
  { left. split; [done|]. right. right. by apply nil_length_inv. }
  destruct (lookup_lt_is_Some_2 (colaAviones g) 0) as [a0 H0];
    [unfold Len in Hnz; lia|].
  destruct (heap_Pop_Some _ a0 H0) as (cola' & Hpop & _).
  rewrite Hpop. right.
  destruct (decide (1 ≤ estadoActual g ≤ 3)) as [Hr|Hr].
  - rewrite !bool_decide_eq_true_2 by lia. cbn [andb].
    destruct (esCategoriaValida (estadoActual g) a0) eqn:Hv; cbn [negb].
    + right. exists a0, cola'. auto 10.
    + left. exists a0, cola'. auto 10.
  - right. exists a0, cola'.
    split; [done|]. split; [done|]. split; [done|]. split; [by left|].
    destruct (decide (1 ≤ estadoActual g)).
    + rewrite (bool_decide_eq_false_2 (estadoActual g ≤ 3)) by lia.
      by rewrite andb_false_r.
    + by rewrite (bool_decide_eq_false_2 (1 ≤ estadoActual g)) by lia.
Qed.

(** ** The invariant of the globals *)

Lemma Inv_globales_set_msg m g : Inv_globales g → Inv_globales (set_msg m g).
Proof. done. Qed.

Lemma Inv_globales_actualizarEstado estado g :
  Inv_globales g → Inv_globales (actualizarEstado estado g).1.
Proof.
  intros (Hh & Hp & Hf).
  destruct (actualizarEstado_casos estado) as [H78 | [Hact | (H7 & H8 & Hin)]].
  - by rewrite actualizarEstado_78.
  - pose proof (actualizarEstado_cola_activo estado g Hact) as Hperm.
    rewrite actualizarEstado_activo in * by done.
    split; [apply reordenarCola_monticulo|]. split; [done|].
    intros _. rewrite Hperm. cbn [estadoActual reordenarCola set_cola].
    apply Forall_fmap, Forall_forall. by intros a _.
  - rewrite actualizarEstado_inactivo by done.
    split; [done|]. split; [done|]. simpl. intros ?. lia.
Qed.

Lemma leerMensajes_lectura_vacio g : leerMensajes_lectura "" g = (g, []).
Proof. done. Qed.

Lemma Inv_globales_leerMensajes raw g :
  Inv_globales g → Inv_globales (leerMensajes_lectura raw g).1.
Proof.
  intros Hg. destruct (decide (raw = "")) as [->|Hne]; [done|].
  rewrite leerMensajes_lectura_eq by done.
  destruct (Atoi (TrimSpace raw)) as [n|]; [|done].
  by apply Inv_globales_actualizarEstado.
Qed.

Lemma Inv_globales_turno g :
  Inv_globales g → Inv_globales (procesarCola_turno g).1.1.
Proof.
  intros (Hh & Hp & Hf).
  destruct (procesarCola_turno_casos g)
    as [[-> _] | [(a & cola' & Hpop & _ & _ & _ & _ & ->)
                 | (a & cola' & Hpop & _ & _ & _ & ->)]]; [done| |];
    apply heap_Pop_inv in Hpop as (_ & Hperm & _ & Hh');
    destruct (Hh' Hh) as [Hh2 _]; cbn [fst].
  - split; [by apply heap_Push_ok|]. split; [done|].
    intros Hr. cbn. rewrite heap_Push_perm, <- Hperm. by apply Hf.
  - split; [done|]. split; [done|].
    intros Hr. cbn. specialize (Hf Hr). rewrite Hperm in Hf.
    by apply Forall_cons in Hf as [_ ?].
Qed.

(** ** [init] *)

Lemma init_loop_monticulo k : ∀ i cola src cola' src',
  es_monticulo cola → init_loop k i cola src = Some (cola', src') →
  es_monticulo cola'.
Proof.
  induction k as [|k IH]; intros i cola src cola' src' Hh Hi.
  - by injection Hi as <- <-.
  - simpl in Hi.
    destruct (Intn 50 src) as [[ra src1]|]; [|done]. simpl in Hi.
    destruct (Intn 51 src1) as [[rb src2]|]; [|done]. simpl in Hi.
    destruct (Intn 50 src2) as [[rc src3]|]; [|done]. simpl in Hi.
    apply IH in Hi; [done|]. by repeat apply heap_Push_ok.
Qed.

Lemma init_globals_Inv src g : init_globals src = Some g → Inv_globales g.
Proof.
  unfold init_globals. intros Hi.
  destruct (init_loop 10 1 (heap_Init []) src) as [[cola src']|] eqn:E; [|done].
  injection Hi as <-.
  apply init_loop_monticulo in E; [|apply es_monticulo_nil].
  split; [done|]. split; [done|].
  simpl. intros ?. lia.
Qed.

(** ** The runway pool *)

Lemma cuenta_ocupadas_app l p :
  cuenta_ocupadas (l ++ [p]) = (cuenta_ocupadas l + (if ocupa p then 1 else 0))%nat.
Proof. induction l as [|q l IH]; simpl; [lia|]. rewrite IH. lia. Qed.

Lemma cuenta_ocupadas_insert l : ∀ i p q,
  l !! i = Some p →
  (cuenta_ocupadas (<[i := q]> l) + (if ocupa p then 1 else 0) =
   cuenta_ocupadas l + (if ocupa q then 1 else 0))%nat.
Proof.
  induction l as [|x l IH]; intros i p q Hi; [done|].
  destruct i as [|i]; simpl in *.
  - injection Hi as ->. lia.
  - specialize (IH i p q Hi). lia.
Qed.

Lemma enviar_Some c c' :
  enviar c = Some c' ↔ (length c < capacidad)%nat ∧ c' = c ++ [tt].
Proof.
  unfold enviar. case_bool_decide; split.
  - by intros [= <-].
  - by intros [_ ->].
  - done.
  - intros [? _]. lia.
Qed.

Lemma recibir_Some c c' :
  recibir c = Some c' ↔ (0 < length c)%nat ∧ length c = S (length c') ∧ c = tt :: c'.
Proof.
  destruct c as [|[] c]; simpl; split.
  - done.
  - intros [? _]. lia.
  - intros [= <-]. split; [lia | done].
  - by intros (_ & _ & [= <-]).
Qed.

(** What a step does to the pool, label by label. *)
Lemma paso_pistas e s s' ev :
  paso e s = Some (s', ev) →
  match e with
  | Reservar _ _ =>
      (0 < length (pistasDisponibles s))%nat ∧
      pistas_ocupadas s' = S (pistas_ocupadas s) ∧
      S (length (pistasDisponibles s')) = length (pistasDisponibles s)
  | Liberar _ =>
      (length (pistasDisponibles s) < capacidad)%nat ∧
      S (pistas_ocupadas s') = pistas_ocupadas s ∧
      length (pistasDisponibles s') = S (length (pistasDisponibles s))
  | _ =>
      pistas_ocupadas s' = pistas_ocupadas s ∧
      pistasDisponibles s' = pistasDisponibles s
  end.
Proof.
  unfold pistas_ocupadas. destruct e as [|raw|i|i v|i]; simpl.
  - intros [= <- _]. simpl. rewrite cuenta_ocupadas_app. simpl. split; [lia | done].
  - destruct (leerMensajes_lectura raw (globales s)) as [g out].
    by intros [= <- _].
  - destruct (despachadores s !! i) as [[| |]|] eqn:Hi; try done.
    destruct (procesarCola_turno (globales s)) as [[g out] t].
    intros [= <- _]. simpl. split; [|done].
    pose proof (cuenta_ocupadas_insert (despachadores s) i EnBucle
      (match t with Pista a => Reservando a | _ => EnBucle end) Hi) as Hc.
    destruct t; simpl in Hc; lia.
  - destruct (despachadores s !! i) as [[|a|]|] eqn:Hi; try done.
    destruct (recibir (pistasDisponibles s)) as [c|] eqn:Hr; [|done]. simpl.
    intros [= <- _]. simpl.
    apply recibir_Some in Hr as (Hpos & Hlen & _).
    pose proof (cuenta_ocupadas_insert (despachadores s) i (Reservando a)
      (Usando a (Z.land v (4 - 1))) Hi) as Hc. simpl in Hc.
    split; [done|]. split; lia.
  - destruct (despachadores s !! i) as [[| |a d]|] eqn:Hi; try done.
    destruct (enviar (pistasDisponibles s)) as [c|] eqn:Hr; [|done]. simpl.
    intros [= <- _]. simpl.
    apply enviar_Some in Hr as (Hlt & ->).
    pose proof (cuenta_ocupadas_insert (despachadores s) i (Usando a d)
      EnBucle Hi) as Hc. simpl in Hc.
    rewrite length_app. simpl. split; [done|]. split; lia.
Qed.

Lemma paso_globales e s s' ev :
  paso e s = Some (s', ev) →
  match e with
  | Recibir raw =>
      globales s' = (leerMensajes_lectura raw (globales s)).1 ∧
      ev = EvMensaje (leerMensajes_lectura raw (globales s)).2
  | Girar i =>
      globales s' = (procesarCola_turno (globales s)).1.1 ∧
      ev = EvTurno i (procesarCola_turno (globales s)).1.2
                     (procesarCola_turno (globales s)).2
  | _ => globales s' = globales s ∧ extraido ev = None
  end.
Proof.
  destruct e as [|raw|i|i v|i]; simpl.
  - by intros [= <- <-].
  - destruct (leerMensajes_lectura raw (globales s)) as [g out].
    by intros [= <- <-].
  - destruct (despachadores s !! i) as [[| |]|]; try done.
    destruct (procesarCola_turno (globales s)) as [[g out] t].
    by intros [= <- <-].
  - destruct (despachadores s !! i) as [[|a|]|]; try done.
    destruct (recibir (pistasDisponibles s)) as [c|]; [|done]. simpl.
    by intros [= <- <-].
  - destruct (despachadores s !! i) as [[| |a d]|]; try done.
    destruct (enviar (pistasDisponibles s)) as [c|]; [|done]. simpl.
    by intros [= <- <-].
Qed.

Lemma paso_Inv e s s' ev : Inv s → paso e s = Some (s', ev) → Inv s'.
Proof.
  intros [Hg Hc] Hp.
  pose proof (paso_pistas _ _ _ _ Hp) as Hpi.
  pose proof (paso_globales _ _ _ _ Hp) as Hgl.
  split.
  - destruct e; destruct Hgl as [-> _]; try done.
    + by apply Inv_globales_leerMensajes.
    + by apply Inv_globales_turno.
  - destruct e; try (destruct Hpi as [-> ->]; done); lia.
Qed.

Lemma init_Inv src s : init src = Some s → Inv s.
Proof.
  unfold init. destruct (init_globals src) as [g|] eqn:E; [|done].
  simpl. intros [= <-]. split; [by eapply init_globals_Inv | done].
Qed.

Lemma Alcanzable_Inv s : Alcanzable s → Inv s.
Proof.
  induction 1 as [src s Hi | s e s' ev _ IH Hp].
  - by eapply init_Inv.
  - by eapply paso_Inv.
Qed.

(** ** Runs without a state transition *)

Lemma set_msg_mismo g : set_msg (msg g) g = g.
Proof. by destruct g. Qed.

Lemma lectura_sin_transicion raw g :
  cambia_estado (Recibir raw) = false →
  ∃ m, (leerMensajes_lectura raw g).1 = set_msg m g.
Proof.
  unfold cambia_estado. intros Hc.
  destruct (decide (raw = "")) as [->|Hne].
  { exists (msg g). by rewrite set_msg_mismo. }
  rewrite bool_decide_eq_false_2 in Hc by done. cbn [negb andb] in Hc.
  rewrite leerMensajes_lectura_eq by done.
  destruct (Atoi (TrimSpace raw)) as [n|]; [|by eexists].
  apply negb_false_iff, orb_true_iff in Hc.
  rewrite !bool_decide_eq_true in Hc.
  rewrite actualizarEstado_78 by done. by eexists.
Qed.

Lemma ejecutar_cons e tr s s' evs :
  ejecutar (e :: tr) s = Some (s', evs) →
  ∃ s1 ev evs', paso e s = Some (s1, ev) ∧ ejecutar tr s1 = Some (s', evs') ∧
                evs = ev :: evs'.
Proof.
  simpl. destruct (paso e s) as [[s1 ev]|]; [|done]. simpl.
  destruct (ejecutar tr s1) as [[s2 evs']|] eqn:He; [|done]. simpl.
  intros [= <- <-]. by exists s1, ev, evs'.
Qed.

(** One step of such a run: the state code stays, the queue loses at most
    the aircraft taken, and an aircraft taken from a heap has the largest
    priority of the queue. *)
Lemma paso_sin_transicion e s s' ev :
  Inv_globales (globales s) → cambia_estado e = false →
  paso e s = Some (s', ev) →
  estadoActual (globales s') = estadoActual (globales s) ∧
  (∀ b, b ∈ colaAviones (globales s') → b ∈ colaAviones (globales s)) ∧
  (∀ a, extraido ev = Some a →
        a ∈ colaAviones (globales s) ∧
        Forall (λ b, prioridad b ≤ prioridad a) (colaAviones (globales s))).
Proof.
  intros (Hh & _ & _) Hc Hp. pose proof (paso_globales _ _ _ _ Hp) as Hg.
  destruct e as [|raw|i|i v|i]; try (destruct Hg as [-> ->]; done).
  - destruct Hg as [-> ->].
    destruct (lectura_sin_transicion raw (globales s) Hc) as [m ->]. done.
  - destruct Hg as [-> ->].
    destruct (procesarCola_turno_casos (globales s))
      as [[-> _] | [(a & cola' & Hpop & _ & _ & _ & _ & ->)
                   | (a & cola' & Hpop & _ & _ & _ & ->)]]; [done| |];
      apply heap_Pop_inv in Hpop as (_ & Hperm & _ & Hh');
      destruct (Hh' Hh) as [_ Hmax]; cbn [fst snd extraido].
    + split; [done|]. split.
      * intros b. cbn [colaAviones set_detener set_cola].
        by rewrite heap_Push_perm, Hperm.
      * intros ? [= <-]. split; [|done]. rewrite Hperm. apply list_elem_of_here.
    + split; [done|]. split.
      * intros b Hb. cbn [colaAviones set_cola] in Hb. rewrite Hperm.
        by apply list_elem_of_further.
      * intros ? [= <-]. split; [|done]. rewrite Hperm. apply list_elem_of_here.
Qed.

Lemma extraidos_cons ev evs :
  extraidos (ev :: evs) =
    match extraido ev with Some a => a :: extraidos evs | None => extraidos evs end.
Proof. unfold extraidos. simpl. by destruct (extraido ev). Qed.

Lemma ejecutar_sin_transicion tr : ∀ s s' evs,
  Inv s → sin_transicion tr → ejecutar tr s = Some (s', evs) →
  Inv s' ∧
  estadoActual (globales s') = estadoActual (globales s) ∧
  (∀ b, b ∈ colaAviones (globales s') → b ∈ colaAviones (globales s)) ∧
  (∀ a, a ∈ extraidos evs → a ∈ colaAviones (globales s)) ∧
  StronglySorted (λ a b, prioridad b ≤ prioridad a) (extraidos evs) ∧
  (∀ a b, a ∈ extraidos evs → b ∈ colaAviones (globales s') →
          prioridad b ≤ prioridad a).
Proof.
  induction tr as [|e tr IH]; intros s s' evs HI Hst He.
  - injection He as <- <-.
    split; [done|]. split; [done|]. split; [done|].
    split; [intros a Ha; by apply elem_of_nil in Ha|].
    split; [constructor|].
    intros a b Ha. by apply elem_of_nil in Ha.
  - apply ejecutar_cons in He as (s1 & ev & evs' & Hp & He & ->).
    apply Forall_cons in Hst as [Hc Hst].
    pose proof (paso_Inv _ _ _ _ HI Hp) as HI1.
    destruct (paso_sin_transicion _ _ _ _ (proj1 HI) Hc Hp) as (E1 & S1 & X1).
    destruct (IH _ _ _ HI1 Hst He) as (HI' & E2 & S2 & M2 & Hs2 & B2).
    split; [done|]. split; [congruence|]. split; [auto|].
    rewrite extraidos_cons. destruct (extraido ev) as [a0|] eqn:Hx.
    + destruct (X1 a0 eq_refl) as [Hin Hmax].
      rewrite Forall_forall in Hmax.
      split; [|split].
      * intros a Ha. apply elem_of_cons in Ha as [->|Ha]; auto.
      * constructor; [done|]. apply Forall_forall. intros b Hb.
        specialize (Hmax b (S1 _ (M2 _ Hb))). lia.
      * intros a b Ha Hb. apply elem_of_cons in Ha as [->|Ha]; [|by apply B2].
        apply Hmax. auto.
    + split; [auto|]. split; [done|]. done.
Qed.

Lemma StronglySorted_lookup {A} (R : A → A → Prop) (l : list A) :
  StronglySorted R l →
  ∀ i j a b, l !! i = Some a → l !! j = Some b → (i < j)%nat → R a b.
Proof.
  induction 1 as [|x l _ IH Hall]; intros i j a b Hi Hj Hlt; [done|].
  destruct j as [|j]; [lia|]. simpl in Hj.
  destruct i as [|i]; simpl in Hi.
  - injection Hi as <-. rewrite Forall_forall in Hall.
    apply Hall. by eapply list_elem_of_lookup_2.
  - eapply IH; [done..|lia].
Qed.

(** ** The dispatcher: claims about runs *)

(** C5. In a run that starts in a reachable state and contains no state
    transition, the aircraft are taken from the queue in non-increasing
    priority order.  If the state of the run is 4, every aircraft taken
    before a category-A aircraft is itself of category A, and once an
    aircraft of another category has been taken no category-A aircraft is
    left in the queue. *)
Theorem C5_extraccion_por_prioridad
    (s s' : Sistema) (tr : list Etiqueta) (evs : list Evento) :
  Alcanzable s → sin_transicion tr → ejecutar tr s = Some (s', evs) →
  StronglySorted (λ a b, prioridad b ≤ prioridad a) (extraidos evs) ∧
  (estadoActual (globales s) = 4 →
   (∀ i j a b, extraidos evs !! i = Some a → extraidos evs !! j = Some b →
               (i < j)%nat → categoria b = "A" → categoria a = "A") ∧
   (∀ a, a ∈ extraidos evs → categoria a ≠ "A" →
         Forall (λ b, categoria b ≠ "A") (colaAviones (globales s')))).
Proof.
  intros Ha Hst He. pose proof (Alcanzable_Inv _ Ha) as HI.
  destruct (ejecutar_sin_transicion _ _ _ _ HI Hst He)
    as (_ & _ & S2 & M2 & Hs & B2).
  split; [done|]. intros H4.
  destruct HI as [(_ & _ & Hf) _]. rewrite H4 in Hf.
  specialize (Hf ltac:(lia)). rewrite Forall_forall in Hf.
  assert (Hpri : ∀ a, a ∈ colaAviones (globales s) →
                      prioridad a = if decide (categoria a = "A") then 2 else 0).
  { intros a Hin. by rewrite (Hf a Hin). }
  split.
  - intros i j a b Hi Hj Hlt Hb.
    pose proof (StronglySorted_lookup _ _ Hs i j a b Hi Hj Hlt) as Hge.
    simpl in Hge.
    rewrite (Hpri a), (Hpri b) in Hge
      by (apply M2; by eapply list_elem_of_lookup_2).
    rewrite (decide_True (P := categoria b = "A")) in Hge by done.
    destruct (decide (categoria a = "A")); [done | lia].
  - intros a Hin Hcat. apply Forall_forall. intros b Hb Hbcat.
    specialize (B2 a b Hin Hb).
    rewrite (Hpri a), (Hpri b) in B2 by auto.
    rewrite decide_True, decide_False in B2 by done. lia.
Qed.

Lemma paso_detenido e s s' ev :
  detenerProceso (globales s) = true → cambia_estado e = false →
  paso e s = Some (s', ev) →
  extraido ev = None ∧
  colaAviones (globales s') = colaAviones (globales s) ∧
  detenerProceso (globales s') = true.
Proof.
  intros Hd Hc Hp. pose proof (paso_globales _ _ _ _ Hp) as Hg.
  destruct e as [|raw|i|i v|i]; try (destruct Hg as [-> ->]; done).
  - destruct Hg as [-> ->].
    destruct (lectura_sin_transicion raw (globales s) Hc) as [m ->]. done.
  - destruct Hg as [-> ->].
    destruct (procesarCola_turno_casos (globales s))
      as [[-> _] | [(a & cola' & _ & Hd' & _) | (a & cola' & _ & Hd' & _)]];
      [done | congruence | congruence].
Qed.

(** While [detenerProceso] is set and no state transition arrives, every
    turn of every dispatcher sleeps: nothing leaves the queue. *)
Lemma ejecutar_detenido tr : ∀ s s' evs,
  detenerProceso (globales s) = true → sin_transicion tr →
  ejecutar tr s = Some (s', evs) →
  extraidos evs = [] ∧
  colaAviones (globales s') = colaAviones (globales s) ∧
  detenerProceso (globales s') = true.
Proof.
  induction tr as [|e tr IH]; intros s s' evs Hd Hst He.
  - by injection He as <- <-.
  - apply ejecutar_cons in He as (s1 & ev & evs' & Hp & He & ->).
    apply Forall_cons in Hst as [Hc Hst].
    destruct (paso_detenido _ _ _ _ Hd Hc Hp) as (Hx & Hq & Hd1).
    destruct (IH _ _ _ Hd1 Hst He) as (Hx' & Hq' & Hd').
    rewrite extraidos_cons, Hx. split; [done|]. split; [congruence | done].
Qed.

Lemma despachados_extraidos evs : extraidos evs = [] → despachados evs = [].
Proof.
  induction evs as [|ev evs IH]; [done|]. rewrite extraidos_cons.
  destruct (extraido ev) eqn:Hx; [done|]. intros He.
  unfold despachados. simpl.
  destruct ev as [| |i out [|a|a]| |]; try done; by apply IH.
Qed.

Lemma actualizarEstado_limpia code g :
  code ≠ 7 → code ≠ 8 → detenerProceso (actualizarEstado code g).1 = false.
Proof.
  intros H7 H8.
  destruct (actualizarEstado_casos code) as [H78 | [Hact | (_ & _ & Hin)]].
  - lia.
  - by rewrite actualizarEstado_activo.
  - by rewrite actualizarEstado_inactivo.
Qed.

(** C2. In an exclusive state (1, 2 or 3), when a turn of the dispatcher
    takes from the queue an aircraft [a] that [esCategoriaValida] rejects:
    the turn announces the exhausted category, puts [a] back (the queue keeps
    its length and its aircraft) and sets [detenerProceso]; from then on, in
    any run without a state transition, no aircraft leaves the queue and the
    flag stays set; and every [actualizarEstado] with a code other than 7 and
    8 clears the flag. *)
Theorem C2_agotamiento_de_categoria
    (s : Sistema) (i : nat) (a : Avion) (cola' : AvionHeap) :
  despachadores s !! i = Some EnBucle →
  procesar (globales s) = true →
  detenerProceso (globales s) = false →
  1 ≤ estadoActual (globales s) ≤ 3 →
  heap_Pop (colaAviones (globales s)) = Some (a, cola') →
  esCategoriaValida (estadoActual (globales s)) a = false →
  ∃ s',
    paso (Girar i) s =
      Some (s', EvTurno i [anuncio_agotado (estadoActual (globales s))] (Agotado a)) ∧
    length (colaAviones (globales s')) = length (colaAviones (globales s)) ∧
    colaAviones (globales s') ≡ₚ colaAviones (globales s) ∧
    detenerProceso (globales s') = true ∧
    (∀ tr s'' evs,
       sin_transicion tr → ejecutar tr s' = Some (s'', evs) →
       extraidos evs = [] ∧ despachados evs = [] ∧
       colaAviones (globales s'') = colaAviones (globales s') ∧
       detenerProceso (globales s'') = true) ∧
    (∀ code, code ≠ 7 → code ≠ 8 →
       detenerProceso (actualizarEstado code (globales s')).1 = false).
Proof.
  intros Hi Hp Hd Hr Hpop Hv.
  assert (Ht : procesarCola_turno (globales s) =
               (set_detener true (set_cola (heap_Push cola' a) (globales s)),
                [anuncio_agotado (estadoActual (globales s))], Agotado a)).
  { destruct (procesarCola_turno_casos (globales s))
      as [[_ [?|[?|Hnil]]] | [(a1 & c1 & Hpop1 & _ & _ & _ & _ & ->)
                              | (a1 & c1 & Hpop1 & _ & _ & [?|Hv1] & _)]];
      try congruence; try lia.
    by rewrite Hnil in Hpop. }
  eexists. split.
  { unfold paso. rewrite Hi, Ht. reflexivity. }
  apply heap_Pop_inv in Hpop as (_ & Hperm & Hlen & _).
  cbn [globales colaAviones detenerProceso set_detener set_cola].
  split; [rewrite heap_Push_length; lia|].
  split; [by rewrite heap_Push_perm|].
  split; [done|]. split.
  - intros tr s'' evs Hst He.
    apply ejecutar_detenido in He as (Hx & Hq & Hd'); [|done..].
    split; [done|]. split; [by apply despachados_extraidos|]. done.
  - intros code. apply actualizarEstado_limpia.
Qed.

(** ** The runway pool: claim *)

Lemma cuenta_ocupadas_lookup l : ∀ i p,
  l !! i = Some p → ocupa p = true → (1 ≤ cuenta_ocupadas l)%nat.
Proof.
  induction l as [|x l IH]; intros i p Hi Ho; [done|].
  destruct i as [|i]; simpl in *.
  - injection Hi as ->. rewrite Ho. lia.
  - specialize (IH i p Hi Ho). lia.
Qed.

(** C3. In every reachable state the number of runways in use is between 0
    and 3, and together with the slots left in the channel it makes the
    capacity, which is the constant 3.  A step that reserves a runway is only
    possible when the channel holds a slot, and takes exactly one; a step
    that frees a runway gives exactly one back; no other step touches the
    pool.  With no slot left a reservation blocks, and a dispatcher that
    holds a runway can always give it back. *)
Theorem C3_pistas_en_uso_acotadas (s : Sistema) :
  Alcanzable s →
  (0 ≤ pistas_ocupadas s ≤ 3)%nat ∧
  (length (pistasDisponibles s) + pistas_ocupadas s = capacidad)%nat ∧
  capacidad = 3%nat ∧
  (∀ e s' ev, paso e s = Some (s', ev) →
     match e with
     | Reservar _ _ =>
         (0 < length (pistasDisponibles s))%nat ∧
         pistas_ocupadas s' = S (pistas_ocupadas s) ∧
         S (length (pistasDisponibles s')) = length (pistasDisponibles s)
     | Liberar _ =>
         (length (pistasDisponibles s) < capacidad)%nat ∧
         S (pistas_ocupadas s') = pistas_ocupadas s ∧
         length (pistasDisponibles s') = S (length (pistasDisponibles s))
     | _ =>
         pistas_ocupadas s' = pistas_ocupadas s ∧
         pistasDisponibles s' = pistasDisponibles s
     end) ∧
  (∀ i v, pistasDisponibles s = [] → paso (Reservar i v) s = None) ∧
  (∀ i a d, despachadores s !! i = Some (Usando a d) →
            is_Some (paso (Liberar i) s)).
Proof.
  intros Ha. destruct (Alcanzable_Inv _ Ha) as [_ Hc].
  unfold capacidad in *.
  split; [lia|]. split; [done|]. split; [done|].
  split; [intros e s' ev Hp; apply (paso_pistas _ _ _ _ Hp)|].
  split.
  - intros i v Hnil. unfold paso. rewrite Hnil.
    by destruct (despachadores s !! i) as [[| |]|].
  - intros i a d Hi. unfold paso. rewrite Hi.
    pose proof (cuenta_ocupadas_lookup _ _ _ Hi eq_refl) as Hge.
    unfold pistas_ocupadas in Hc.
    destruct (enviar (pistasDisponibles s)) as [c|] eqn:He; [by eexists|].
    unfold enviar, capacidad in He.
    rewrite bool_decide_eq_true_2 in He by lia. done.
Qed.

(** ** Closed instances *)

Lemma Alcanzable_ejecutar tr : ∀ s s',
  Alcanzable s → fst <$> ejecutar tr s = Some s' → Alcanzable s'.
Proof.
  induction tr as [|e tr IH]; intros s s' Ha He.
  - by injection He as <-.
  - simpl in He. destruct (paso e s) as [[s1 ev]|] eqn:Hp; [|done].
    simpl in He. apply (IH s1); [by eapply alc_paso|].
    by destruct (ejecutar tr s1) as [[s2 evs]|].
Qed.


Lemma C2_testigo :
  despachadores sistema_agotable !! 0%nat = Some EnBucle ∧
  heap_Pop (colaAviones (globales sistema_agotable))
    = Some (mkAvion 11 "B" 60 0, []) ∧
  esCategoriaValida 1 (mkAvion 11 "B" 60 0) = false ∧
  ∃ s', paso (Girar 0) sistema_agotable =
          Some (s', EvTurno 0 [anuncio_agotado 1] (Agotado (mkAvion 11 "B" 60 0))) ∧
        detenerProceso (globales s') = true.
Proof.
  split; [reflexivity|]. split; [reflexivity|]. split; [reflexivity|].
  destruct (C2_agotamiento_de_categoria sistema_agotable 0
              (mkAvion 11 "B" 60 0) [])
    as (s' & Hp & _ & _ & Hd & _);
    [reflexivity | reflexivity | reflexivity | simpl; lia
    | reflexivity | reflexivity |].
  exists s'. split; [exact Hp | exact Hd].
Defined.

Lemma C3_testigo :
  Alcanzable sistema_en_uso ∧
  pistas_ocupadas sistema_en_uso = 1%nat ∧
  (0 ≤ pistas_ocupadas sistema_en_uso ≤ 3)%nat.
Proof.
  assert (Ha : Alcanzable sistema_en_uso).
  { apply (Alcanzable_ejecutar
             (preparacion_ejemplo ++ [Girar 0; Reservar 0 7])
             sistema_inicial_ejemplo);
      [apply (alc_init fuente_ejemplo) | ]; vm_compute; reflexivity. }
  split; [exact Ha|]. split; [reflexivity|].
  exact (proj1 (C3_pistas_en_uso_acotadas sistema_en_uso Ha)).
Defined.

Lemma C4_testigo :
  (7 = 7 ∨ 7 = 8) ∧
  actualizarEstado 7 globals_ejemplo =
    (globals_ejemplo,
     ["Estado 7 u 8 recibido, se mantiene el estado actual: 0" +:+ nl]).
Proof.
  split; [by left|].
  pose proof (C4_estado_7_u_8_no_cambia_nada 7 globals_ejemplo (or_introl eq_refl))
    as H.
  destruct (actualizarEstado 7 globals_ejemplo) as [g' out].
  destruct H as (-> & _ & _ & _ & _ & ->). reflexivity.
Defined.

Lemma C5_testigo :
  Alcanzable sistema_en_4 ∧ sin_transicion traza_ejemplo ∧
  ejecutar traza_ejemplo sistema_en_4 = Some resultado_ejemplo ∧
  estadoActual (globales sistema_en_4) = 4 ∧
  id <$> extraidos resultado_ejemplo.2 = [1; 10] ∧
  categoria <$> extraidos resultado_ejemplo.2 = ["A"; "A"] ∧
  StronglySorted (λ a b, prioridad b ≤ prioridad a)
                 (extraidos resultado_ejemplo.2).
Proof.
  assert (Ha : Alcanzable sistema_en_4).
  { apply (Alcanzable_ejecutar preparacion_ejemplo sistema_inicial_ejemplo);
      [apply (alc_init fuente_ejemplo) | ]; vm_compute; reflexivity. }
  assert (Hst : sin_transicion traza_ejemplo).
  { unfold sin_transicion, traza_ejemplo. repeat constructor. }
  assert (He : ejecutar traza_ejemplo sistema_en_4 = Some resultado_ejemplo)
    by (vm_compute; reflexivity).
  split; [exact Ha|]. split; [exact Hst|]. split; [exact He|].
  split; [reflexivity|]. split; [reflexivity|]. split; [reflexivity|].
  exact (proj1 (C5_extraccion_por_prioridad sistema_en_4 resultado_ejemplo.1
                  traza_ejemplo resultado_ejemplo.2 Ha Hst He)).
Defined.

Lemma C7_testigo :
  ¬ (0 ≤ 12 ≤ 9) ∧
  estadoActual (actualizarEstado 12 globals_ejemplo).1 = 12 ∧
  calcularPrioridad 12 (mkAvion 1 "A" 120 0) = 0 ∧
  esCategoriaValida 12 (mkAvion 11 "B" 60 0) = true.
Proof.
  assert (Hn : ¬ (0 ≤ 12 ≤ 9)) by lia.
  split; [exact Hn|].
  destruct (C7_codigo_no_reconocido 12 globals_ejemplo Hn) as (H1 & H2 & H3).
  split; [exact H1|]. split; [|reflexivity].
  rewrite <- H1 at 1. apply H2.
Defined.

Lemma C8_testigo :
  " hola " ≠ "" ∧
  leerMensajes_lectura " hola " globals_ejemplo =
    (set_msg "hola" globals_ejemplo, ["hola" +:+ nl]).
Proof.
  assert (Hne : " hola " ≠ "") by discriminate.
  split; [exact Hne|].
  exact (C8_lectura_de_un_mensaje " hola " globals_ejemplo Hne).
Defined.

Lemma C10_testigo :
  " 5 " ≠ "" ∧
  msg (leerMensajes_lectura " 5 " globals_ejemplo).1 = "5" ∧
  estadoActual (leerMensajes_lectura " 5 " globals_ejemplo).1 = 5.
Proof.
  assert (Hne : " 5 " ≠ "") by discriminate.
  split; [exact Hne|].
  destruct (C10_recorte_antes_de_Atoi " 5 " globals_ejemplo Hne)
    as (_ & Hm & _ & _).
  split; [exact Hm | reflexivity].
Defined.

Lemma C9_testigo :
  is_Some (paso (Reservar 0 7) sistema_reservando) ∧
  ∃ a d out,
    snd <$> paso (Reservar 0 7) sistema_reservando = Some (EvReserva 0 a d out) ∧
    0 ≤ d < 4.
Proof.
  destruct (paso (Reservar 0 7) sistema_reservando) as [[s' ev]|] eqn:Hp;
    [|vm_compute in Hp; discriminate].
  split; [by eexists|].
  destruct (proj1 (proj2 (C9_duracion_de_uso 7)) _ _ _ _ Hp)
    as (a & d & out & -> & _ & Hd).
  by exists a, d, out.
Defined.

(** C8 as it is written fails: the text echoed is the trimmed one, not the
    chunk as received, and a chunk that [Atoi] rejects because of the blanks
    around the digits is taken as a state code instead of being echoed. *)
Lemma C8_contraejemplo :
  (leerMensajes_lectura " hola " globals_ejemplo).2 = ["hola" +:+ nl] ∧
  salida_sin_recorte " hola " globals_ejemplo = [" hola " +:+ nl] ∧
  (leerMensajes_lectura " hola " globals_ejemplo).2
    ≠ salida_sin_recorte " hola " globals_ejemplo ∧
  Atoi " 5 " = None ∧
  (leerMensajes_lectura " 5 " globals_ejemplo).2
    ≠ salida_sin_recorte " 5 " globals_ejemplo.
Proof.
  split; [reflexivity|]. split; [reflexivity|].
  split; [vm_compute; discriminate|]. split; [reflexivity|].
  vm_compute; discriminate.
Qed.

(** C9 as it is written fails: a draw of 3 holds the runway 3 seconds. *)
Lemma C9_contraejemplo :
  usarPista_duracion 3 = Some 3 ∧
  ¬ (∀ v d, usarPista_duracion v = Some d → 0 ≤ d < 3).
Proof.
  split; [reflexivity|]. intros H. specialize (H 3 3 eq_refl). lia.
Qed.

(** * More of the code

    ** Numbers on the wire: [strconv.Itoa] against [strconv.Atoi] *)

Lemma digito_pretty_N_char d :
  (d < 10)%N → digito (pretty_N_char d) = Some (Z.of_N d).
Proof.
  intros Hd.
  assert (d = 0 ∨ d = 1 ∨ d = 2 ∨ d = 3 ∨ d = 4 ∨ d = 5 ∨ d = 6 ∨ d = 7
          ∨ d = 8 ∨ d = 9)%N as H by lia.
  destruct H as [->|[->|[->|[->|[->|[->|[->|[->|[->| ->]]]]]]]]]; reflexivity.
Qed.

Lemma digitos_pretty_N_go x : ∀ s,
  ∃ p, ∀ acc, digitos acc (pretty_N_go x s) = digitos (acc * p + Z.of_N x) s.
Proof.
  induction (N.lt_wf_0 x) as [x _ IH]. intros s.
  destruct (decide (x = 0%N)) as [->|Hx].
  { exists 1. intros acc. rewrite pretty_N_go_0. f_equal. simpl. lia. }
  rewrite pretty_N_go_step by lia.
  destruct (IH (x `div` 10)%N ltac:(apply N.div_lt; lia)
               (String (pretty_N_char (x `mod` 10)) s)) as [p Hp].
  exists (p * 10). intros acc. rewrite Hp. cbn [digitos].
  rewrite digito_pretty_N_char by (apply N.mod_lt; lia). cbn.
  f_equal. rewrite N2Z.inj_div, N2Z.inj_mod. lia.
Qed.

Lemma digitos_pretty_positive (q : positive) :
  digitos 0 (pretty_N_go (N.pos q) "") = Some (Z.pos q) ∧
  ∃ c s, pretty_N_go (N.pos q) "" = String c s ∧ is_Some (digito c).
Proof.
  destruct (digitos_pretty_N_go (N.pos q) "") as [p Hp].
  assert (Hd : digitos 0 (pretty_N_go (N.pos q) "") = Some (Z.pos q)).
  { rewrite Hp. simpl. done. }
  split; [done|].
  destruct (pretty_N_go (N.pos q) "") as [|c s]; [done|].
  exists c, s. split; [done|]. cbn [digitos] in Hd.
  destruct (digito c); [by eexists | done].
Qed.

Lemma digito_no_signo c : is_Some (digito c) → c ≠ "-"%char ∧ c ≠ "+"%char.
Proof. intros [d Hd]. split; intros ->; discriminate. Qed.

(** What [Itoa] writes, [Atoi] reads back, for every Go [int]. *)
Lemma Atoi_Itoa n : - 2 ^ 63 ≤ n < 2 ^ 63 → Atoi (Itoa n) = Some n.
Proof.
  intros Hn. destruct n as [|q|q]; [reflexivity| |].
  - destruct (digitos_pretty_positive q) as (Hd & c & s & Hs & Hc).
    change (Itoa (Z.pos q)) with (pretty_N_go (N.pos q) "").
    unfold Atoi. rewrite Hs in *.
    destruct (digito_no_signo c Hc) as [H1 H2].
    rewrite !bool_decide_eq_false_2 by done. cbn [orb].
    rewrite Hd. cbn. by rewrite !bool_decide_eq_true_2 by lia.
  - destruct (digitos_pretty_positive q) as (Hd & c & s & Hs & Hc).
    change (Itoa (Z.neg q)) with (String "-" (pretty_N_go (N.pos q) "")).
    unfold Atoi. rewrite bool_decide_eq_true_2 by done. cbn [orb].
    rewrite Hs in *. rewrite Hd. cbn.
    by rewrite !bool_decide_eq_true_2 by lia.
Qed.

Lemma de_numero_pretty_N_char d : de_numero (pretty_N_char d) = true.
Proof. unfold pretty_N_char. by repeat case_match. Qed.

Lemma de_numero_pretty_N_go x : ∀ s,
  Forall (λ c, de_numero c = true) (list_ascii_of_string s) →
  Forall (λ c, de_numero c = true) (list_ascii_of_string (pretty_N_go x s)).
Proof.
  induction (N.lt_wf_0 x) as [x _ IH]. intros s Hs.
  destruct (decide (x = 0%N)) as [->|Hx]; [by rewrite pretty_N_go_0|].
  rewrite pretty_N_go_step by lia. apply IH; [apply N.div_lt; lia|].
  cbn. constructor; [apply de_numero_pretty_N_char | done].
Qed.

Lemma de_numero_Itoa n :
  Itoa n ≠ "" ∧ Forall (λ c, de_numero c = true) (list_ascii_of_string (Itoa n)).
Proof.
  destruct n as [|q|q]; [by split; [|repeat constructor]| |].
  - destruct (digitos_pretty_positive q) as (_ & c & s & Hs & _).
    change (Itoa (Z.pos q)) with (pretty_N_go (N.pos q) "").
    split; [by rewrite Hs|]. by apply de_numero_pretty_N_go.
  - change (Itoa (Z.neg q)) with (String "-" (pretty_N_go (N.pos q) "")).
    split; [done|]. cbn. constructor; [done|].
    by apply de_numero_pretty_N_go.
Qed.

(** ** [strings.TrimSpace] on a line of the controller *)

Lemma recortar_None toks fuel s :
  sin_espacio toks s = None → recortar fuel toks s = s.
Proof. intros H. destruct fuel; [done|]. simpl. by rewrite H. Qed.

Lemma sin_espacio_de_numero c r :
  de_numero c = true →
  sin_espacio espacios (c :: r) = None ∧
  sin_espacio (reverse <$> espacios) (c :: r) = None.
Proof.
  intros H. destruct c as [b0 b1 b2 b3 b4 b5 b6 b7].
  destruct b0, b1, b2, b3, b4, b5, b6, b7;
    first [discriminate H | split; reflexivity].
Qed.

Lemma sin_espacio_salto r :
  sin_espacio (reverse <$> espacios) (ascii_of_nat 10 :: r) = Some r.
Proof. reflexivity. Qed.

Lemma list_ascii_of_string_app s1 s2 :
  list_ascii_of_string (s1 +:+ s2) =
  list_ascii_of_string s1 ++ list_ascii_of_string s2.
Proof.
  induction s1 as [|c s1 IH]; [done|].
  change (String c s1 +:+ s2) with (String c (s1 +:+ s2)).
  cbn [list_ascii_of_string app]. by rewrite IH.
Qed.

(** A text made of digits and minus signs, followed by a newline: trimming
    gives the text back. *)
Lemma TrimSpace_linea s :
  s ≠ "" → Forall (λ c, de_numero c = true) (list_ascii_of_string s) →
  TrimSpace (s +:+ nl) = s.
Proof.
  intros Hne Hall. unfold TrimSpace.
  rewrite list_ascii_of_string_app. change (list_ascii_of_string nl)
    with [ascii_of_nat 10].
  set (l := list_ascii_of_string s) in *.
  assert (Hl : l ≠ []) by (subst l; by destruct s).
  assert (HL : TrimLeft (l ++ [ascii_of_nat 10]) = l ++ [ascii_of_nat 10]).
  { unfold TrimLeft. apply recortar_None.
    destruct l as [|c l0]; [done|]. cbn [app].
    apply Forall_cons in Hall as [Hc _].
    exact (proj1 (sin_espacio_de_numero c _ Hc)). }
  rewrite HL. unfold TrimRight.
  rewrite reverse_app, reverse_singleton. cbn [app].
  rewrite length_app, Nat.add_1_r. cbn [recortar]. rewrite sin_espacio_salto.
  rewrite recortar_None.
  - rewrite reverse_involutive. subst l. apply string_of_list_ascii_of_string.
  - destruct (reverse l) as [|c r] eqn:Hr.
    { apply (f_equal reverse) in Hr. rewrite reverse_involutive in Hr. done. }
    assert (Hin : c ∈ reverse l) by (rewrite Hr; apply list_elem_of_here).
    rewrite elem_of_reverse in Hin. rewrite Forall_forall in Hall.
    exact (proj2 (sin_espacio_de_numero c r (Hall c Hin))).
Qed.

Lemma TrimSpace_Itoa n : TrimSpace (Itoa n +:+ nl) = Itoa n.
Proof. destruct (de_numero_Itoa n). by apply TrimSpace_linea. Qed.

(** ** The controller *)

Lemma getRand_rango t : 0 ≤ t → 1 ≤ Enaire.getRand t ≤ 9.
Proof.
  intros Ht. unfold Enaire.getRand. cbv zeta.
  rewrite Z.rem_mod_nonneg by lia.
  pose proof (Z.mod_pos_bound t 10 ltac:(lia)).
  case_bool_decide; lia.
Qed.

(** X1. [getRand] never returns 0: read at a clock value that is not
    negative it returns a code between 1 and 9, namely the last decimal digit
    of the reading, with 9 standing in for a last digit 0. *)
Theorem getRand_entre_1_y_9 (t : Z) :
  0 ≤ t →
  1 ≤ Enaire.getRand t ≤ 9 ∧
  Enaire.getRand t = (if decide (t `mod` 10 = 0) then 9 else t `mod` 10).
Proof.
  intros Ht. unfold Enaire.getRand. cbv zeta.
  rewrite Z.rem_mod_nonneg by lia.
  pose proof (Z.mod_pos_bound t 10 ltac:(lia)).
  case_bool_decide; case_decide; try done; lia.
Qed.

Lemma linea_no_vacia s : s ≠ "" → s +:+ nl ≠ "".
Proof. by destruct s. Qed.

(** X2. What [Send2conn] writes for a number is read back by the tower as
    that number: the one chunk sent is the decimal text and a newline, and a
    read of that chunk calls [actualizarEstado] with the same number and then
    prints its description, for every Go [int]. *)
Theorem Send2conn_leerMensajes (number : Z) (g : Globals) :
  - 2 ^ 63 ≤ number < 2 ^ 63 →
  Enaire.enviado (Enaire.Send2conn number) = [Itoa number +:+ nl] ∧
  Atoi (TrimSpace (Itoa number +:+ nl)) = Some number ∧
  leerMensajes_lectura (Itoa number +:+ nl) g =
    ((actualizarEstado number (set_msg (Itoa number) g)).1,
     (actualizarEstado number (set_msg (Itoa number) g)).2
       ++ descripcionEstado number).
Proof.
  intros Hn. split; [done|].
  assert (Ha : Atoi (TrimSpace (Itoa number +:+ nl)) = Some number)
    by (rewrite TrimSpace_Itoa; by apply Atoi_Itoa).
  split; [done|].
  rewrite leerMensajes_lectura_eq
    by (apply linea_no_vacia; apply de_numero_Itoa).
  by rewrite Ha, TrimSpace_Itoa.
Qed.

Lemma enviado_luego a b :
  Enaire.enviado (Enaire.luego a b) = Enaire.enviado a ++ Enaire.enviado b.
Proof. done. Qed.

Lemma dormido_luego a b :
  Enaire.dormido (Enaire.luego a b) = Enaire.dormido a ++ Enaire.dormido b.
Proof. done. Qed.

Lemma operando_loop_efectos n : ∀ k addr reloj,
  Enaire.enviado (Enaire.operando_loop n k addr reloj) =
    (λ i, Itoa (Enaire.getRand (reloj (k + 2 * i)%nat)) +:+ nl) <$> seq 0 n ∧
  Enaire.dormido (Enaire.operando_loop n k addr reloj) =
    (λ i, Enaire.getRand (reloj (k + 2 * i + 1)%nat) + 1) <$> seq 0 n.
Proof.
  induction n as [|n IH]; intros k addr reloj; [done|].
  cbn [Enaire.operando_loop]. rewrite enviado_luego, dormido_luego.
  destruct (IH (S (S k)) addr reloj) as [-> ->].
  cbn [seq fmap list_fmap]. rewrite <- !seq_shift, <- !list_fmap_compose.
  split.
  - cbn. f_equal; [by rewrite Nat.add_0_r|].
    apply list_fmap_ext. intros _ i _. unfold compose. do 4 f_equal. lia.
  - cbn. f_equal; [by rewrite Nat.add_0_r, Nat.add_1_r|].
    apply list_fmap_ext. intros _ i _. unfold compose. do 3 f_equal. lia.
Qed.

(** X3. A whole session of the controller, whatever the clock shows (not
    negative): it sends twelve chunks, code 0 first and last and ten codes
    between 1 and 9 in between, each as digits and a newline, and every sleep
    lasts between 1 and 10 seconds. *)
Theorem Enaire_main_envia (addr : string) (reloj : nat → Z) :
  (∀ k, 0 ≤ reloj k) →
  ∃ codigos,
    Enaire.enviado (Enaire.main addr reloj) =
      (λ n, Itoa n +:+ nl) <$> ([0] ++ codigos ++ [0]) ∧
    codigos = (λ i, Enaire.getRand (reloj (2 * i)%nat)) <$> seq 0 10 ∧
    Forall (λ n, 1 ≤ n ≤ 9) codigos ∧
    length (Enaire.dormido (Enaire.main addr reloj)) = 13%nat ∧
    Forall (λ d, 1 ≤ d ≤ 10) (Enaire.dormido (Enaire.main addr reloj)).
Proof.
  intros Hr. eexists. split; [|split; [reflexivity|]].
  - unfold Enaire.main. rewrite !enviado_luego.
    rewrite (proj1 (operando_loop_efectos 10 0 addr reloj)).
    rewrite !fmap_app, <- list_fmap_compose. reflexivity.
  - split; [|split].
    + apply Forall_fmap, Forall_forall. intros i _. cbn.
      apply getRand_rango, Hr.
    + unfold Enaire.main. rewrite !dormido_luego.
      rewrite (proj2 (operando_loop_efectos 10 0 addr reloj)).
      rewrite !length_app, length_fmap, length_seq. reflexivity.
    + unfold Enaire.main. rewrite !dormido_luego.
      rewrite (proj2 (operando_loop_efectos 10 0 addr reloj)).
      rewrite !Forall_app. split; [repeat constructor; lia|].
      split; [|repeat constructor; lia].
      apply Forall_fmap, Forall_forall. intros i _. unfold compose.
      pose proof (getRand_rango _ (Hr (0 + 2 * i + 1)%nat)). lia.
Qed.

(** ** The queue as a heap *)

Lemma heap_Push_al_final h x :
  Forall (λ b, prioridad x ≤ prioridad b) h → heap_Push h x = h ++ [x].
Proof.
  intros Hall. unfold heap_Push, up, Push, Len.
  rewrite length_app. change (length [x]) with 1%nat.
  replace (length h + 1 - 1)%nat with (length h) by lia.
  rewrite up_loop_S.
  destruct (Nat.eqb_spec (padre (length h)) (length h)) as [|Hne]; [done|].
  cbn [orb].
  assert (Hp : (padre (length h) < length h)%nat)
    by (apply padre_lt; unfold padre in Hne; lia).
  rewrite Less_pri by (rewrite length_app; simpl; lia).
  rewrite bool_decide_eq_false_2; [done|].
  unfold pri. rewrite lookup_app_r, Nat.sub_diag by lia.
  rewrite lookup_app_l by lia.
  destruct (lookup_lt_is_Some_2 h _ Hp) as [b Hb]. rewrite Hb. simpl.
  rewrite Forall_forall in Hall.
  specialize (Hall b (list_elem_of_lookup_2 _ _ _ Hb)). lia.
Qed.

(** X4. [heap.Pop] on the queue: it panics exactly on the empty queue;
    otherwise it returns the aircraft at index 0 and leaves the others, one
    fewer; and when the queue is in heap order the aircraft returned has the
    largest priority and what is left is again in heap order. *)
Theorem heap_Pop_especificacion (h : AvionHeap) :
  es_monticulo h →
  match heap_Pop h with
  | None => h = []
  | Some (a, h') =>
      h !! 0%nat = Some a ∧ h ≡ₚ a :: h' ∧ length h = S (length h') ∧
      es_monticulo h' ∧ Forall (λ b, prioridad b ≤ prioridad a) h'
  end.
Proof.
  intros Hh. destruct (heap_Pop h) as [[a h']|] eqn:Hp.
  - pose proof (heap_Pop_max h a h' Hh Hp) as Hmax.
    apply heap_Pop_inv in Hp as (H0 & Hperm & Hlen & Hh').
    destruct (Hh' Hh) as [Hh2 _]. by repeat split.
  - by apply heap_Pop_None.
Qed.

(** X5. [heap.Push] on the queue: the queue gains exactly the aircraft
    pushed and stays in heap order; an aircraft whose priority exceeds none
    of the queued ones goes to the end of the slice, the others keeping their
    places. *)
Theorem heap_Push_especificacion (h : AvionHeap) (x : Avion) :
  es_monticulo h →
  es_monticulo (heap_Push h x) ∧
  heap_Push h x ≡ₚ x :: h ∧
  length (heap_Push h x) = S (length h) ∧
  (Forall (λ b, prioridad x ≤ prioridad b) h → heap_Push h x = h ++ [x]).
Proof.
  intros Hh. split; [by apply heap_Push_ok|].
  split; [apply heap_Push_perm|]. split; [apply heap_Push_length|].
  apply heap_Push_al_final.
Qed.

(** ** [init], in full *)

Lemma Intn_rango n src r src' :
  Intn n src = Some (r, src') → 0 ≤ r < n.
Proof.
  unfold Intn. case_bool_decide as Hn; [done|].
  case_bool_decide as Hp.
  - destruct src as [|v src0]; [done|]. intros [= <- _].
    assert (0 ≤ Z.land v (n - 1)) by (apply Z.land_nonneg; lia).
    assert (Z.land v (n - 1) ≤ n - 1); [|lia].
    destruct (decide (n = 1)) as [->|]; [by rewrite Z.land_0_r|].
    (* [n & (n-1) == 0] makes [n] a power of two: bit [log2 n] of [n - 1]
       is clear, so [n - 1 < 2 ^ log2 n <= n]. *)
    destruct (Z.log2_spec n ltac:(lia)) as [Hlo Hhi].
    assert (Hbit : Z.testbit n (Z.log2 n) = true) by (apply Z.bit_log2; lia).
    pose proof (f_equal (λ z, Z.testbit z (Z.log2 n)) Hp) as Hl.
    cbn beta in Hl. rewrite Z.land_spec, Hbit, Z.bits_0 in Hl. cbn in Hl.
    assert (Hlt : n - 1 < 2 ^ Z.log2 n).
    { destruct (decide (n - 1 < 2 ^ Z.log2 n)) as [|Hge]; [done|].
      assert (Z.log2 (n - 1) = Z.log2 n).
      { apply Z.le_antisymm; [apply Z.log2_le_mono; lia|].
        apply Z.log2_le_pow2; lia. }
      assert (Z.testbit (n - 1) (Z.log2 (n - 1)) = true)
        by (apply Z.bit_log2; lia).
      congruence. }
    assert (Hpow : n - 1 = Z.ones (Z.log2 n)) by (rewrite Z.ones_equiv; lia).
    rewrite Hpow, Z.land_ones by apply Z.log2_nonneg.
    pose proof (Z.mod_pos_bound v (2 ^ Z.log2 n) ltac:(lia)).
    rewrite Z.ones_equiv. lia.
  - intros H. revert src H.
    induction src as [|v src0 IH]; [done|]. simpl.
    case_bool_decide; [apply IH|]. intros [= <- _].
    apply Z.mod_pos_bound. lia.
Qed.

Lemma heap_Push_prioridad_0 cola x :
  Forall (λ a, prioridad a = 0) cola → prioridad x = 0 →
  heap_Push cola x = cola ++ [x] ∧ Forall (λ a, prioridad a = 0) (cola ++ [x]).
Proof.
  intros H0 Hx. split.
  - apply heap_Push_al_final. apply (Forall_impl _ _ _ H0).
    intros b Hb. lia.
  - apply Forall_app. split; [done | by constructor].
Qed.

Lemma init_loop_spec k : ∀ i cola src cola' src',
  1 ≤ i → i + Z.of_nat k ≤ 11 →
  Forall (λ a, prioridad a = 0) cola →
  init_loop k i cola src = Some (cola', src') →
  ∃ nuevos,
    cola' = cola ++ nuevos ∧
    id <$> nuevos = ids_iniciales k i ∧
    Forall (λ a, prioridad a = 0) nuevos ∧
    Forall (λ a, de_la_flota (datos a)) nuevos.
Proof.
  induction k as [|k IH]; intros i cola src cola' src' Hi Hk H0 Hinit.
  - injection Hinit as <- <-. exists []. by rewrite app_nil_r.
  - cbn [init_loop] in Hinit.
    destruct (Intn 50 src) as [[ra src1]|] eqn:Ea; [|done]. cbn in Hinit.
    destruct (Intn 51 src1) as [[rb src2]|] eqn:Eb; [|done]. cbn in Hinit.
    destruct (Intn 50 src2) as [[rc src3]|] eqn:Ec; [|done]. cbn in Hinit.
    apply Intn_rango in Ea, Eb, Ec.
    set (a := mkAvion i "A" (ra + 101) 0) in *.
    set (b := mkAvion (i + 10) "B" (rb + 50) 0) in *.
    set (c := mkAvion (i + 20) "C" (rc + 1) 0) in *.
    destruct (heap_Push_prioridad_0 cola a H0 eq_refl) as [E1 H1].
    destruct (heap_Push_prioridad_0 _ b H1 eq_refl) as [E2 H2].
    destruct (heap_Push_prioridad_0 _ c H2 eq_refl) as [E3 H3].
    rewrite E1, E2, E3 in Hinit.
    apply IH in Hinit as (nuevos & -> & Hids & Hp & Hf); [|lia|lia|done].
    exists (a :: b :: c :: nuevos). split; [by rewrite <- !app_assoc|].
    split; [cbn; by rewrite Hids|]. split; [by repeat constructor|].
    apply Forall_cons; split;
      [|apply Forall_cons; split; [|apply Forall_cons; split; [|done]]];
      unfold de_la_flota, datos, categoria_de_id; subst a b c;
      cbn [id categoria numPasajeros].
    + rewrite bool_decide_eq_true_2 by lia. repeat split; (done || lia).
    + rewrite bool_decide_eq_false_2, bool_decide_eq_true_2 by lia.
      repeat split; (done || lia).
    + rewrite !bool_decide_eq_false_2 by lia. repeat split; (done || lia).
Qed.

Lemma heap_Init_nil : heap_Init [] = [].
Proof. reflexivity. Qed.

Lemma ids_iniciales_NoDup : NoDup (ids_iniciales 10 1).
Proof. apply (bool_decide_unpack _). by vm_compute. Qed.

Lemma init_flota src s :
  init src = Some s →
  despachadores s = [] ∧ flota_en_orden (datos <$> colaAviones (globales s)).
Proof.
  unfold init, init_globals. intros Hi.
  destruct (init_loop 10 1 (heap_Init []) src) as [[cola src']|] eqn:E; [|done].
  cbn in Hi. injection Hi as <-. cbn [globales despachadores colaAviones].
  rewrite heap_Init_nil in E.
  apply init_loop_spec in E as (nuevos & -> & Hids & Hp & Hf); [|lia|lia|done].
  cbn [app]. split; [done|]. split.
  - rewrite <- list_fmap_compose.
    replace (fst ∘ fst ∘ datos) with id by done.
    rewrite Hids. apply ids_iniciales_NoDup.
  - by apply Forall_fmap.
Qed.

(** X6. The state [init] leaves, whatever the generator draws: state code 0,
    processing disabled, flag clear, three runways in the channel, no
    dispatcher, and a queue of thirty aircraft of priority 0 in the order
    they were pushed (1, 11, 21, 2, 12, 22, ...), with distinct ids, ten
    aircraft per category and passenger counts within 101..150, 50..100 and
    1..50 for the categories A, B and C. *)
Theorem init_estado_inicial (src : Fuente) (s : Sistema) :
  init src = Some s →
  globales s = mkGlobals "" 0 (colaAviones (globales s)) false false ∧
  pistasDisponibles s = [tt; tt; tt] ∧
  despachadores s = [] ∧
  id <$> colaAviones (globales s) = ids_iniciales 10 1 ∧
  length (colaAviones (globales s)) = 30%nat ∧
  Forall (λ a, prioridad a = 0) (colaAviones (globales s)) ∧
  flota_en_orden (datos <$> colaAviones (globales s)).
Proof.
  unfold init, init_globals. intros Hi.
  destruct (init_loop 10 1 (heap_Init []) src) as [[cola src']|] eqn:E; [|done].
  cbn in Hi. injection Hi as <-. cbn [globales pistasDisponibles despachadores
                                      colaAviones].
  rewrite heap_Init_nil in E.
  apply init_loop_spec in E as (nuevos & -> & Hids & Hp & Hf); [|lia|lia|done].
  cbn [app]. split; [done|]. split; [done|]. split; [done|].
  split; [done|]. split.
  { rewrite <- (length_fmap id), Hids. reflexivity. }
  split; [done|]. split.
  - rewrite <- list_fmap_compose.
    replace (fst ∘ fst ∘ datos) with id by done.
    rewrite Hids. apply ids_iniciales_NoDup.
  - by apply Forall_fmap.
Qed.

Lemma Intn_50_acepta v src :
  v ≤ sorteo_maximo → Intn 50 (v :: src) = Some (v `mod` 50, src).
Proof.
  intros Hv. unfold sorteo_maximo in Hv. unfold Intn.
  rewrite bool_decide_eq_false_2 by lia.
  rewrite bool_decide_eq_false_2 by done.
  cbn [Int31n_rechazo]. rewrite bool_decide_eq_false_2; [done|].
  change (2 ^ 31 - 1 - 2 ^ 31 `mod` 50) with 2147483599. lia.
Qed.

Lemma Intn_51_acepta v src :
  v ≤ sorteo_maximo → Intn 51 (v :: src) = Some (v `mod` 51, src).
Proof.
  intros Hv. unfold sorteo_maximo in Hv. unfold Intn.
  rewrite bool_decide_eq_false_2 by lia.
  rewrite bool_decide_eq_false_2 by done.
  cbn [Int31n_rechazo]. rewrite bool_decide_eq_false_2; [done|].
  change (2 ^ 31 - 1 - 2 ^ 31 `mod` 51) with 2147483621. lia.
Qed.

Lemma init_loop_termina k : ∀ i cola src,
  (3 * k ≤ length src)%nat → Forall (λ v, v ≤ sorteo_maximo) src →
  is_Some (init_loop k i cola src).
Proof.
  induction k as [|k IH]; intros i cola src Hlen Hall; [by eexists|].
  destruct src as [|v1 [|v2 [|v3 src]]]; simpl in Hlen; try lia.
  apply Forall_cons in Hall as [H1 Hall].
  apply Forall_cons in Hall as [H2 Hall].
  apply Forall_cons in Hall as [H3 Hall].
  cbn [init_loop]. rewrite Intn_50_acepta by done. cbn.
  rewrite Intn_51_acepta by done. cbn.
  rewrite Intn_50_acepta by done. cbn.
  apply IH; [lia | done].
Qed.

(** X7. [init] runs to its end on every generator that yields at least
    thirty raw values none of which the rejection sampling of [rand.Intn]
    discards (values up to 2147483599). *)
Theorem init_termina (src : Fuente) :
  (30 ≤ length src)%nat → Forall (λ v, v ≤ sorteo_maximo) src →
  is_Some (init src).
Proof.
  intros Hlen Hall. unfold init, init_globals.
  destruct (init_loop_termina 10 1 (heap_Init []) src) as [[cola src'] ->];
    [simpl; lia | done |].
  by eexists.
Qed.

(** ** No aircraft is made up, lost or doubled *)

Lemma datos_recalcular estado (cola : AvionHeap) :
  datos <$> (recalcular estado <$> cola) = datos <$> cola.
Proof. rewrite <- list_fmap_compose. by apply list_fmap_ext. Qed.

Lemma actualizarEstado_datos estado g :
  datos <$> colaAviones (actualizarEstado estado g).1 ≡ₚ datos <$> colaAviones g.
Proof.
  destruct (actualizarEstado_casos estado) as [H78 | [Hact | (H7 & H8 & Hin)]].
  - by rewrite actualizarEstado_78.
  - rewrite (actualizarEstado_cola_activo estado g Hact).
    by rewrite datos_recalcular.
  - by rewrite actualizarEstado_inactivo.
Qed.

(** X8. A state change never adds, drops or alters an aircraft: for every
    code, the queue after [actualizarEstado] holds the same aircraft (id,
    category and passengers) as before, and the same number of them. *)
Theorem actualizarEstado_conserva_la_cola (estado : Z) (g : Globals) :
  datos <$> colaAviones (actualizarEstado estado g).1 ≡ₚ datos <$> colaAviones g ∧
  length (colaAviones (actualizarEstado estado g).1) = length (colaAviones g).
Proof.
  pose proof (actualizarEstado_datos estado g) as Hd.
  split; [done|].
  apply Permutation_length in Hd. by rewrite !length_fmap in Hd.
Qed.

Lemma leerMensajes_lectura_datos raw g :
  datos <$> colaAviones (leerMensajes_lectura raw g).1 ≡ₚ datos <$> colaAviones g.
Proof.
  destruct (decide (raw = "")) as [->|Hne]; [done|].
  rewrite leerMensajes_lectura_eq by done.
  destruct (Atoi (TrimSpace raw)) as [n|]; [|done].
  apply (actualizarEstado_datos n (set_msg (TrimSpace raw) g)).
Qed.

Lemma fuera_de_cola_app l p :
  fuera_de_cola (l ++ [p]) = fuera_de_cola l ++ en_vuelo p.
Proof.
  induction l as [|q l IH]; simpl; [by rewrite app_nil_r|].
  by rewrite IH, app_assoc.
Qed.

Lemma fuera_de_cola_insert l : ∀ i p q,
  l !! i = Some p →
  fuera_de_cola (<[i := q]> l) ++ en_vuelo p ≡ₚ fuera_de_cola l ++ en_vuelo q.
Proof.
  induction l as [|x l IH]; intros i p q Hi; [done|].
  destruct i as [|i]; simpl in *.
  - injection Hi as ->. solve_Permutation.
  - rewrite <- !app_assoc. by rewrite (IH i p q Hi).
Qed.

(** One step: the aircraft queued or held before it are the ones queued or
    held after it, and the one whose runway is given back. *)
Lemma paso_censo e s s' ev :
  paso e s = Some (s', ev) →
  datos <$> censo s ≡ₚ datos <$> (censo s' ++ liberado ev).
Proof.
  unfold censo. intros Hp.
  destruct e as [|raw|i|i v|i]; simpl in Hp.
  - injection Hp as <- <-. simpl.
    by rewrite fuera_de_cola_app, !app_nil_r.
  - destruct (leerMensajes_lectura raw (globales s)) as [g out] eqn:El.
    injection Hp as <- <-. cbn [globales despachadores liberado].
    rewrite app_nil_r, !fmap_app.
    pose proof (leerMensajes_lectura_datos raw (globales s)) as Hd.
    rewrite El in Hd. cbn [fst] in Hd. by rewrite Hd.
  - destruct (despachadores s !! i) as [[| |]|] eqn:Hi; try done.
    destruct (procesarCola_turno_casos (globales s))
      as [[Ht _] | [(a & cola' & Hpop & _ & _ & _ & _ & Ht)
                   | (a & cola' & Hpop & _ & _ & _ & Ht)]];
      rewrite Ht in Hp; injection Hp as <- <-;
      cbn [globales despachadores liberado colaAviones set_cola set_detener];
      rewrite app_nil_r.
    + by rewrite list_insert_id.
    + apply heap_Pop_inv in Hpop as (_ & Hperm & _).
      rewrite list_insert_id by done.
      by rewrite heap_Push_perm, <- Hperm.
    + apply heap_Pop_inv in Hpop as (_ & Hperm & _).
      pose proof (fuera_de_cola_insert _ i EnBucle (Reservando a) Hi) as Hf.
      cbn [en_vuelo] in Hf. rewrite app_nil_r in Hf.
      apply fmap_Permutation. cbv iota. rewrite Hf, Hperm. solve_Permutation.
  - destruct (despachadores s !! i) as [[|a|]|] eqn:Hi; try done.
    destruct (recibir (pistasDisponibles s)) as [c|]; [|done]. simpl in Hp.
    injection Hp as <- <-.
    cbn [globales despachadores liberado]. rewrite app_nil_r.
    pose proof (fuera_de_cola_insert _ i (Reservando a)
                  (Usando a (Z.land v (4 - 1))) Hi) as Hf.
    cbn [en_vuelo] in Hf. apply fmap_Permutation, Permutation_app; [done|].
    symmetry. by eapply Permutation_app_inv_r.
  - destruct (despachadores s !! i) as [[| |a d]|] eqn:Hi; try done.
    destruct (enviar (pistasDisponibles s)) as [c|]; [|done]. simpl in Hp.
    injection Hp as <- <-.
    cbn [globales despachadores liberado].
    pose proof (fuera_de_cola_insert _ i (Usando a d) EnBucle Hi) as Hf.
    cbn [en_vuelo] in Hf. rewrite app_nil_r in Hf.
    apply fmap_Permutation. by rewrite <- app_assoc, Hf.
Qed.

(** X9. In every run, from any state: the aircraft queued or held by a
    dispatcher at the start are exactly the ones queued or held at the end
    together with the ones whose runway use completed during the run, none
    missing and none twice. *)
Theorem ejecutar_conserva_los_aviones
    (tr : list Etiqueta) (s s' : Sistema) (evs : list Evento) :
  ejecutar tr s = Some (s', evs) →
  datos <$> censo s ≡ₚ datos <$> (censo s' ++ liberados evs).
Proof.
  revert s s' evs. induction tr as [|e tr IH]; intros s s' evs He.
  - injection He as <- <-. simpl. by rewrite app_nil_r.
  - apply ejecutar_cons in He as (s1 & ev & evs' & Hp & He & ->).
    rewrite (paso_censo _ _ _ _ Hp), fmap_app, (IH _ _ _ He).
    cbn [liberados]. rewrite !fmap_app.
    rewrite <- !app_assoc. apply Permutation_app; [done|].
    apply Permutation_app_comm.
Qed.

Lemma flota_en_orden_menor ds ds' ks :
  ds ≡ₚ ds' ++ ks → flota_en_orden ds → flota_en_orden ds'.
Proof.
  intros Hp [Hn Hf]. rewrite Hp in Hn, Hf.
  rewrite fmap_app in Hn. apply NoDup_app in Hn as (Hn & _ & _).
  apply Forall_app in Hf as [Hf _]. by split.
Qed.

(** X10. In every reachable state the aircraft in the queue and in the
    hands of the dispatchers have distinct ids between 1 and 30, the category
    their id was given by [init], and a passenger count within the range of
    that category: ids and categories are never changed or reused; there are
    at most thirty aircraft. *)
Theorem flota_en_todo_estado (s : Sistema) :
  Alcanzable s →
  flota_en_orden (datos <$> censo s) ∧ (length (censo s) ≤ 30)%nat.
Proof.
  intros Ha.
  assert (Hf : flota_en_orden (datos <$> censo s)).
  { induction Ha as [src s Hi | s e s' ev _ IH Hp].
    - destruct (init_flota src s Hi) as (Hd & Hf).
      unfold censo. rewrite Hd. simpl. by rewrite app_nil_r.
    - pose proof (paso_censo _ _ _ _ Hp) as Hc. rewrite fmap_app in Hc.
      by eapply flota_en_orden_menor. }
  split; [done|]. destruct Hf as [Hn Hf].
  rewrite <- (length_fmap datos), <- (length_fmap (fst ∘ fst)).
  assert (Hsub : fst ∘ fst <$> (datos <$> censo s) ⊆ Z.of_nat <$> seq 1 30).
  { intros i Hi. apply list_elem_of_fmap in Hi as ([[j cat] pax] & -> & Hin).
    rewrite Forall_forall in Hf. destruct (Hf _ Hin) as (Hr & _).
    apply list_elem_of_fmap. exists (Z.to_nat j). split; [cbn; lia|].
    apply elem_of_seq. lia. }
  pose proof (submseteq_length _ _ (NoDup_submseteq _ _ Hn Hsub)) as Hl.
  exact Hl.
Qed.

(** ** The exclusive states *)

(** In the states 1, 2 and 3 the three rules name the same category. *)
Lemma reglas_exclusivas estado a :
  1 ≤ estado ≤ 3 →
  esCategoriaValida estado a = bool_decide (categoria a = categoriaEstado estado) ∧
  calcularPrioridad estado a =
    (if decide (categoria a = categoriaEstado estado) then 1 else 0).
Proof.
  intros H. assert (estado = 1 ∨ estado = 2 ∨ estado = 3) as [->|[->| ->]] by lia;
    split; reflexivity.
Qed.

(** X11. In a reachable state whose code is 1, 2 or 3, a turn of the
    dispatcher hands to [usarPista] only an aircraft of the category of the
    state, and it announces that the category is exhausted only when no
    aircraft of that category is left in the queue; the announcement is never
    made in another state. *)
Theorem despacho_en_estado_exclusivo
    (s s' : Sistema) (i : nat) (out : Salida) (t : Turno) :
  Alcanzable s →
  paso (Girar i) s = Some (s', EvTurno i out t) →
  match t with
  | Espera => globales s' = globales s
  | Pista a =>
      a ∈ colaAviones (globales s) ∧
      (1 ≤ estadoActual (globales s) ≤ 3 →
       categoria a = categoriaEstado (estadoActual (globales s)))
  | Agotado a =>
      1 ≤ estadoActual (globales s) ≤ 3 ∧
      Forall (λ b, categoria b ≠ categoriaEstado (estadoActual (globales s)))
             (colaAviones (globales s))
  end.
Proof.
  intros Ha Hp. destruct (Alcanzable_Inv _ Ha) as [(Hh & _ & Hpri) _].
  unfold paso in Hp.
  destruct (despachadores s !! i) as [[| |]|]; try done.
  destruct (procesarCola_turno_casos (globales s))
    as [[Ht _] | [(a & cola' & Hpop & _ & _ & Hr & Hv & Ht)
                 | (a & cola' & Hpop & _ & _ & Hv & Ht)]];
    rewrite Ht in Hp; injection Hp as <- <- <-; [done | |].
  - split; [done|].
    apply heap_Pop_inv in Hpop as (H0 & _ & _ & Hmax).
    destruct (Hmax Hh) as [_ Hle].
    specialize (Hpri ltac:(lia)).
    rewrite Forall_forall in Hle, Hpri. apply Forall_forall. intros b Hb Hcat.
    pose proof (Hle b Hb) as Hba.
    rewrite (Hpri b Hb), (Hpri a (list_elem_of_lookup_2 _ _ _ H0)) in Hba.
    destruct (reglas_exclusivas (estadoActual (globales s)) a Hr) as [Ea Pa].
    destruct (reglas_exclusivas (estadoActual (globales s)) b Hr) as [_ Pb].
    rewrite Ea in Hv. apply bool_decide_eq_false in Hv.
    rewrite Pa, Pb in Hba. rewrite decide_True, decide_False in Hba by done. lia.
  - apply heap_Pop_inv in Hpop as (H0 & _).
    split; [by eapply list_elem_of_lookup_2|]. intros Hr.
    destruct Hv as [Hv|Hv]; [done|].
    destruct (reglas_exclusivas (estadoActual (globales s)) a Hr) as [Ea _].
    rewrite Ea in Hv. by apply bool_decide_eq_true in Hv.
Qed.

(** ** Two codes in one read *)

Lemma append_asociativa (s1 s2 s3 : string) :
  (s1 +:+ s2) +:+ s3 = s1 +:+ (s2 +:+ s3).
Proof.
  induction s1 as [|c s1 IH]; [done|].
  change (String c ((s1 +:+ s2) +:+ s3) = String c (s1 +:+ (s2 +:+ s3))).
  by rewrite IH.
Qed.

Lemma digitos_no_digito d s2 : ∀ s1 acc,
  digito d = None → digitos acc (s1 +:+ String d s2) = None.
Proof.
  induction s1 as [|c s1 IH]; intros acc Hd.
  - change ("" +:+ String d s2) with (String d s2). cbn [digitos].
    by rewrite Hd.
  - change (String c s1 +:+ String d s2) with (String c (s1 +:+ String d s2)).
    cbn [digitos]. destruct (digito c) as [x|]; [|done]. cbn. by apply IH.
Qed.

(** [Atoi] fails on a text with a byte that is not a digit after the first
    one. *)
Lemma Atoi_no_digito c s1 d s2 :
  digito d = None → Atoi (String c (s1 +:+ String d s2)) = None.
Proof.
  intros Hd. unfold Atoi. cbv zeta.
  destruct (bool_decide (c = "-"%char)); cbn [orb].
  - destruct (s1 +:+ String d s2) eqn:E; [by destruct s1|].
    rewrite <- E. by rewrite digitos_no_digito.
  - destruct (bool_decide (c = "+"%char)).
    + destruct (s1 +:+ String d s2) eqn:E; [by destruct s1|].
      rewrite <- E. by rewrite digitos_no_digito.
    + change (String c (s1 +:+ String d s2)) with (String c s1 +:+ String d s2).
      by rewrite digitos_no_digito.
Qed.

(** Trimming a line whose first and last bytes before the newline are a
    digit or a minus sign. *)
Lemma TrimSpace_extremos s c m d r :
  list_ascii_of_string s = c :: m →
  reverse (list_ascii_of_string s) = d :: r →
  de_numero c = true → de_numero d = true →
  TrimSpace (s +:+ nl) = s.
Proof.
  intros Hl Hr Hc Hd. unfold TrimSpace.
  rewrite list_ascii_of_string_app. change (list_ascii_of_string nl)
    with [ascii_of_nat 10].
  set (l := list_ascii_of_string s) in *.
  assert (HL : TrimLeft (l ++ [ascii_of_nat 10]) = l ++ [ascii_of_nat 10]).
  { unfold TrimLeft. apply recortar_None. rewrite Hl. cbn [app].
    exact (proj1 (sin_espacio_de_numero c _ Hc)). }
  rewrite HL. unfold TrimRight.
  rewrite reverse_app, reverse_singleton. cbn [app].
  rewrite length_app, Nat.add_1_r. cbn [recortar]. rewrite sin_espacio_salto.
  rewrite recortar_None.
  - rewrite reverse_involutive. subst l. apply string_of_list_ascii_of_string.
  - rewrite Hr. exact (proj2 (sin_espacio_de_numero d r Hd)).
Qed.

Lemma Itoa_primero n :
  ∃ c s, Itoa n = String c s ∧ de_numero c = true.
Proof.
  destruct (de_numero_Itoa n) as [Hne Hall].
  destruct (Itoa n) as [|c s]; [done|]. exists c, s. split; [done|].
  cbn in Hall. by apply Forall_cons in Hall as [? _].
Qed.

Lemma Itoa_ultimo n :
  ∃ d r, reverse (list_ascii_of_string (Itoa n)) = d :: r ∧ de_numero d = true.
Proof.
  destruct (de_numero_Itoa n) as [Hne Hall].
  destruct (reverse (list_ascii_of_string (Itoa n))) as [|d r] eqn:Hr.
  { apply (f_equal reverse) in Hr. rewrite reverse_involutive in Hr.
    by destruct (Itoa n). }
  exists d, r. split; [done|]. rewrite Forall_forall in Hall. apply Hall.
  rewrite <- elem_of_reverse, Hr. apply list_elem_of_here.
Qed.

(** X12. The tower does not split what it reads into lines.  When two
    messages of the controller arrive in one read, the text is not taken as
    a code: it is stored in [msg] with the newline in the middle and printed
    back, and the state, the queue and the two flags stay as they were. *)
Theorem dos_codigos_en_una_lectura (a b : Z) (g : Globals) :
  leerMensajes_lectura ((Itoa a +:+ nl) +:+ (Itoa b +:+ nl)) g =
    (set_msg (Itoa a +:+ nl +:+ Itoa b) g, [Itoa a +:+ nl +:+ Itoa b +:+ nl]).
Proof.
  destruct (Itoa_primero a) as (c & sa & Ea & Hc).
  destruct (Itoa_ultimo b) as (d & r & Eb & Hd).
  assert (Hs : (Itoa a +:+ nl) +:+ (Itoa b +:+ nl) =
               (Itoa a +:+ nl +:+ Itoa b) +:+ nl)
    by by rewrite !append_asociativa.
  assert (Ht : TrimSpace ((Itoa a +:+ nl +:+ Itoa b) +:+ nl) =
               Itoa a +:+ nl +:+ Itoa b).
  { eapply (TrimSpace_extremos _ c _ d); [|  |done|done].
    - rewrite Ea. reflexivity.
    - rewrite !list_ascii_of_string_app, !reverse_app, Eb. reflexivity. }
  rewrite Hs, leerMensajes_lectura_eq by (rewrite Ea; done).
  rewrite Ht.
  assert (Hn : Atoi (Itoa a +:+ nl +:+ Itoa b) = None).
  { rewrite Ea. change (String c sa +:+ nl +:+ Itoa b)
      with (String c (sa +:+ String (ascii_of_nat 10) (Itoa b))).
    by apply Atoi_no_digito. }
  rewrite Hn. by rewrite !append_asociativa.
Qed.

(** ** Dispatchers and connections *)

Lemma cuenta_ocupadas_le l : (cuenta_ocupadas l ≤ length l)%nat.
Proof. induction l as [|p l IH]; simpl; [lia|]. destruct (ocupa p); lia. Qed.

Lemma paso_despachadores e s s' ev :
  paso e s = Some (s', ev) →
  length (despachadores s') = (length (despachadores s) + conexiones [e])%nat ∧
  (despachadores s = [] → conexiones [e] = 0%nat →
   extraido ev = None ∧ liberado ev = []).
Proof.
  intros Hp. destruct e as [|raw|i|i v|i]; simpl in Hp.
  - injection Hp as <- <-. simpl. rewrite length_app. simpl. split; [lia|done].
  - destruct (leerMensajes_lectura raw (globales s)) as [g out].
    injection Hp as <- <-. simpl. split; [lia|done].
  - destruct (despachadores s !! i) as [[| |]|] eqn:Hi; try done.
    destruct (procesarCola_turno (globales s)) as [[g out] t].
    injection Hp as <- <-. simpl. rewrite length_insert. split; [lia|].
    intros Hnil. by rewrite Hnil in Hi.
  - destruct (despachadores s !! i) as [[|a|]|] eqn:Hi; try done.
    destruct (recibir (pistasDisponibles s)) as [c|]; [|done]. simpl in Hp.
    injection Hp as <- <-. simpl. rewrite length_insert. split; [lia|done].
  - destruct (despachadores s !! i) as [[| |a d]|] eqn:Hi; try done.
    destruct (enviar (pistasDisponibles s)) as [c|]; [|done]. simpl in Hp.
    injection Hp as <- <-. simpl. rewrite length_insert. split; [lia|].
    intros Hnil. by rewrite Hnil in Hi.
Qed.

Lemma conexiones_cons e tr :
  conexiones (e :: tr) = (conexiones [e] + conexiones tr)%nat.
Proof. by destruct e. Qed.

(** X13. Every connection that [main] makes starts one more dispatcher and
    none ever ends: after a run there are as many dispatchers as before plus
    the connections made in the run.  The runways in use never exceed the
    number of dispatchers, and while no connection has been made no aircraft
    leaves the queue and no runway use completes. *)
Theorem despachadores_y_conexiones
    (tr : list Etiqueta) (s s' : Sistema) (evs : list Evento) :
  ejecutar tr s = Some (s', evs) →
  length (despachadores s') = (length (despachadores s) + conexiones tr)%nat ∧
  (pistas_ocupadas s' ≤ length (despachadores s'))%nat ∧
  (despachadores s = [] → conexiones tr = 0%nat →
   extraidos evs = [] ∧ liberados evs = []).
Proof.
  intros He.
  assert (H : length (despachadores s') =
                (length (despachadores s) + conexiones tr)%nat ∧
              (despachadores s = [] → conexiones tr = 0%nat →
               extraidos evs = [] ∧ liberados evs = [])).
  { revert s s' evs He. induction tr as [|e tr IH]; intros s s' evs He.
    - injection He as <- <-. simpl. split; [lia|done].
    - apply ejecutar_cons in He as (s1 & ev & evs' & Hp & He & ->).
      destruct (paso_despachadores _ _ _ _ Hp) as [Hl Hq].
      destruct (IH _ _ _ He) as [Hl' Hq'].
      rewrite conexiones_cons. split; [lia|]. intros Hnil Hc.
      destruct (Hq Hnil ltac:(lia)) as [Hx Hlib].
      destruct Hq' as [Hx' Hlib']; [|lia|].
      { apply nil_length_inv. rewrite Hl, Hnil. cbn [length]. lia. }
      rewrite extraidos_cons, Hx. cbn [liberados]. by rewrite Hlib, Hlib'. }
  destruct H as [Hl Hq]. split; [done|]. split; [|done].
  apply cuenta_ocupadas_le.
Qed.

(** ** The states in which nothing is dispatched *)

Lemma paso_inactivo e s s' ev :
  procesar (globales s) = false → cambia_estado e = false →
  paso e s = Some (s', ev) →
  extraido ev = None ∧
  colaAviones (globales s') = colaAviones (globales s) ∧
  estadoActual (globales s') = estadoActual (globales s) ∧
  procesar (globales s') = false.
Proof.
  intros Hd Hc Hp. pose proof (paso_globales _ _ _ _ Hp) as Hg.
  destruct e as [|raw|i|i v|i]; try (destruct Hg as [-> ->]; done).
  - destruct Hg as [-> ->].
    destruct (lectura_sin_transicion raw (globales s) Hc) as [m ->]. done.
  - destruct Hg as [-> ->].
    destruct (procesarCola_turno_casos (globales s))
      as [[-> _] | [(a & cola' & _ & _ & Hd' & _) | (a & cola' & _ & _ & Hd' & _)]];
      [done | congruence | congruence].
Qed.

Lemma ejecutar_inactivo tr : ∀ s s' evs,
  procesar (globales s) = false → sin_transicion tr →
  ejecutar tr s = Some (s', evs) →
  extraidos evs = [] ∧
  colaAviones (globales s') = colaAviones (globales s) ∧
  estadoActual (globales s') = estadoActual (globales s) ∧
  procesar (globales s') = false.
Proof.
  induction tr as [|e tr IH]; intros s s' evs Hd Hst He.
  - by injection He as <- <-.
  - apply ejecutar_cons in He as (s1 & ev & evs' & Hp & He & ->).
    apply Forall_cons in Hst as [Hc Hst].
    destruct (paso_inactivo _ _ _ _ Hd Hc Hp) as (Hx & Hq & He1 & Hd1).
    destruct (IH _ _ _ Hd1 Hst He) as (Hx' & Hq' & He' & Hd').
    rewrite extraidos_cons, Hx. split; [done|].
    split; [congruence|]. split; [congruence | done].
Qed.

(** X14. After the tower reads a code that is none of 1..8 (0, 9 or a
    number without a meaning), and until the next state change: the code read
    is the current state, processing is disabled, the queue stays exactly as
    it was before the read, in the same order, and no aircraft is taken from
    it, whatever the dispatchers and the runways do. *)
Theorem sin_despacho_fuera_de_1_a_8
    (raw : string) (code : Z) (tr : list Etiqueta)
    (s s' : Sistema) (evs : list Evento) :
  raw ≠ "" → Atoi (TrimSpace raw) = Some code → ¬ (1 ≤ code ≤ 8) →
  sin_transicion tr →
  ejecutar (Recibir raw :: tr) s = Some (s', evs) →
  estadoActual (globales s') = code ∧
  procesar (globales s') = false ∧
  colaAviones (globales s') = colaAviones (globales s) ∧
  extraidos evs = [] ∧ despachados evs = [].
Proof.
  intros Hne Ha Hc Hst He.
  apply ejecutar_cons in He as (s1 & ev & evs' & Hp & He & ->).
  apply paso_globales in Hp as [Hg ->].
  rewrite leerMensajes_lectura_eq, Ha in Hg by done. cbn [fst] in Hg.
  rewrite actualizarEstado_inactivo in Hg by lia.
  destruct (ejecutar_inactivo tr s1 s' evs') as (Hx & Hq & Hes & Hpr);
    [by rewrite Hg | done | done |].
  rewrite Hq, Hes, Hg. cbn [estadoActual colaAviones set_msg].
  split; [done|]. split; [done|]. split; [done|].
  rewrite extraidos_cons. cbn [extraido]. split; [done|].
  apply despachados_extraidos. by rewrite extraidos_cons.
Qed.

(** ** A session of the controller, as the tower reads it *)





(** ** What leaves the queue does not come back *)

Lemma despachados_cons ev evs :
  despachados (ev :: evs) = option_list (despachado ev) ++ despachados evs.
Proof. unfold despachados. simpl. by destruct (despachado ev). Qed.

Lemma paso_cola_despachado e s s' ev :
  paso e s = Some (s', ev) →
  datos <$> colaAviones (globales s) ≡ₚ
    datos <$> (colaAviones (globales s') ++ option_list (despachado ev)) ∧
  fuera_de_cola (despachadores s) ++ option_list (despachado ev) ≡ₚ
    fuera_de_cola (despachadores s') ++ liberado ev.
Proof.
  intros Hp. destruct e as [|raw|i|i v|i]; simpl in Hp.
  - injection Hp as <- <-. simpl.
    by rewrite fuera_de_cola_app, !app_nil_r.
  - destruct (leerMensajes_lectura raw (globales s)) as [g out] eqn:El.
    injection Hp as <- <-. cbn [globales despachadores liberado despachado option_list].
    rewrite !app_nil_r. split; [|done].
    pose proof (leerMensajes_lectura_datos raw (globales s)) as Hd.
    rewrite El in Hd. cbn [fst] in Hd. by rewrite Hd.
  - destruct (despachadores s !! i) as [[| |]|] eqn:Hi; try done.
    destruct (procesarCola_turno_casos (globales s))
      as [[Ht _] | [(a & cola' & Hpop & _ & _ & _ & _ & Ht)
                   | (a & cola' & Hpop & _ & _ & _ & Ht)]];
      rewrite Ht in Hp; injection Hp as <- <-;
      cbn [globales despachadores liberado despachado option_list
           colaAviones set_cola set_detener];
      rewrite ?app_nil_r.
    + by rewrite list_insert_id.
    + apply heap_Pop_inv in Hpop as (_ & Hperm & _).
      rewrite list_insert_id by done.
      by rewrite heap_Push_perm, <- Hperm.
    + apply heap_Pop_inv in Hpop as (_ & Hperm & _).
      pose proof (fuera_de_cola_insert _ i EnBucle (Reservando a) Hi) as Hf.
      cbn [en_vuelo] in Hf. rewrite app_nil_r in Hf.
      split; [|by rewrite Hf].
      apply fmap_Permutation. rewrite Hperm. solve_Permutation.
  - destruct (despachadores s !! i) as [[|a|]|] eqn:Hi; try done.
    destruct (recibir (pistasDisponibles s)) as [c|]; [|done]. simpl in Hp.
    injection Hp as <- <-.
    cbn [globales despachadores liberado despachado option_list].
    rewrite !app_nil_r. split; [done|].
    pose proof (fuera_de_cola_insert _ i (Reservando a)
                  (Usando a (Z.land v (4 - 1))) Hi) as Hf.
    cbn [en_vuelo] in Hf. symmetry. by eapply Permutation_app_inv_r.
  - destruct (despachadores s !! i) as [[| |a d]|] eqn:Hi; try done.
    destruct (enviar (pistasDisponibles s)) as [c|]; [|done]. simpl in Hp.
    injection Hp as <- <-.
    cbn [globales despachadores liberado despachado option_list].
    rewrite !app_nil_r. split; [done|].
    pose proof (fuera_de_cola_insert _ i (Usando a d) EnBucle Hi) as Hf.
    cbn [en_vuelo] in Hf. rewrite app_nil_r in Hf. by rewrite Hf.
Qed.

(** X16. An aircraft handed to [usarPista] never returns to the queue: in
    every run the queue at the start holds exactly the aircraft of the queue
    at the end and the ones dispatched in the run.  And every aircraft
    dispatched is either still in the hands of a dispatcher or has completed
    its runway use, once: no runway use completes for an aircraft that was
    not dispatched. *)
Theorem cola_y_despachados
    (tr : list Etiqueta) (s s' : Sistema) (evs : list Evento) :
  ejecutar tr s = Some (s', evs) →
  datos <$> colaAviones (globales s) ≡ₚ
    datos <$> (colaAviones (globales s') ++ despachados evs) ∧
  fuera_de_cola (despachadores s) ++ despachados evs ≡ₚ
    fuera_de_cola (despachadores s') ++ liberados evs.
Proof.
  revert s s' evs. induction tr as [|e tr IH]; intros s s' evs He.
  - injection He as <- <-. by rewrite !app_nil_r.
  - apply ejecutar_cons in He as (s1 & ev & evs' & Hp & He & ->).
    destruct (paso_cola_despachado _ _ _ _ Hp) as [Hc Hf].
    destruct (IH _ _ _ He) as [Hc' Hf'].
    rewrite despachados_cons. cbn [liberados]. split.
    + rewrite Hc, !fmap_app, Hc', !fmap_app. solve_Permutation.
    + rewrite app_assoc, Hf. rewrite <- app_assoc.
      rewrite (Permutation_app_comm (liberado ev)), app_assoc, Hf'.
      solve_Permutation.
Qed.

(** ** Closed instances of the above *)

Lemma es_monticulo_cola_ejemplo : es_monticulo cola_ejemplo.
Proof.
  intros k Hk. simpl in Hk.
  assert (k = 1 ∨ k = 2)%nat as [-> | ->] by lia; vm_compute; discriminate.
Qed.

Lemma Alcanzable_sistema_en_4 : Alcanzable sistema_en_4.
Proof.
  apply (Alcanzable_ejecutar preparacion_ejemplo sistema_inicial_ejemplo);
    [apply (alc_init fuente_ejemplo) | ]; vm_compute; reflexivity.
Qed.

Lemma reloj_ejemplo_no_negativo k : 0 ≤ reloj_ejemplo k.
Proof. unfold reloj_ejemplo. lia. Qed.

Lemma getRand_testigo :
  0 ≤ 1700000000000000070 ∧
  1 ≤ Enaire.getRand 1700000000000000070 ≤ 9 ∧
  Enaire.getRand 1700000000000000070 = 9.
Proof.
  split; [lia|].
  apply (getRand_entre_1_y_9 1700000000000000070). lia.
Defined.

Lemma Send2conn_testigo :
  - 2 ^ 63 ≤ 5 < 2 ^ 63 ∧
  Enaire.enviado (Enaire.Send2conn 5) = ["5" +:+ nl] ∧
  Atoi (TrimSpace ("5" +:+ nl)) = Some 5 ∧
  estadoActual (leerMensajes_lectura ("5" +:+ nl) globals_ejemplo).1 = 5.
Proof.
  split; [lia|].
  destruct (Send2conn_leerMensajes 5 globals_ejemplo) as (H1 & H2 & H3); [lia|].
  split; [exact H1|]. split; [exact H2|].
  change ("5" +:+ nl) with (Itoa 5 +:+ nl). rewrite H3. reflexivity.
Defined.

Lemma Enaire_main_testigo :
  (∀ k, 0 ≤ reloj_ejemplo k) ∧
  Enaire.enviado (Enaire.main "127.0.0.1:8000" reloj_ejemplo) =
    (λ n, Itoa n +:+ nl) <$> [0; 9; 4; 8; 2; 6; 9; 4; 8; 2; 6; 0] ∧
  length (Enaire.dormido (Enaire.main "127.0.0.1:8000" reloj_ejemplo)) = 13%nat.
Proof.
  split; [exact reloj_ejemplo_no_negativo|].
  destruct (Enaire_main_envia "127.0.0.1:8000" reloj_ejemplo
              reloj_ejemplo_no_negativo) as (codigos & He & Hc & _ & Hl & _).
  split; [|exact Hl]. rewrite He, Hc. reflexivity.
Defined.

Lemma heap_Pop_testigo :
  es_monticulo cola_ejemplo ∧
  ∃ a h', heap_Pop cola_ejemplo = Some (a, h') ∧
          cola_ejemplo !! 0%nat = Some a ∧ es_monticulo h'.
Proof.
  split; [exact es_monticulo_cola_ejemplo|].
  pose proof (heap_Pop_especificacion cola_ejemplo es_monticulo_cola_ejemplo) as H.
  destruct (heap_Pop cola_ejemplo) as [[a h']|] eqn:Hp; [|discriminate H].
  exists a, h'. destruct H as (H0 & _ & _ & Hh & _).
  split; [reflexivity|]. split; [exact H0 | exact Hh].
Defined.

Lemma heap_Push_testigo :
  es_monticulo cola_ejemplo ∧
  es_monticulo (heap_Push cola_ejemplo (mkAvion 2 "A" 130 0)) ∧
  length (heap_Push cola_ejemplo (mkAvion 2 "A" 130 0)) = 4%nat.
Proof.
  split; [exact es_monticulo_cola_ejemplo|].
  destruct (heap_Push_especificacion cola_ejemplo (mkAvion 2 "A" 130 0)
              es_monticulo_cola_ejemplo) as (Hh & _ & Hl & _).
  split; [exact Hh | exact Hl].
Defined.

Lemma init_estado_testigo :
  init fuente_ejemplo = Some sistema_inicial_ejemplo ∧
  pistasDisponibles sistema_inicial_ejemplo = [tt; tt; tt] ∧
  length (colaAviones (globales sistema_inicial_ejemplo)) = 30%nat ∧
  flota_en_orden (datos <$> colaAviones (globales sistema_inicial_ejemplo)).
Proof.
  assert (Hi : init fuente_ejemplo = Some sistema_inicial_ejemplo)
    by (vm_compute; reflexivity).
  split; [exact Hi|].
  destruct (init_estado_inicial fuente_ejemplo sistema_inicial_ejemplo Hi)
    as (_ & Hp & _ & _ & Hl & _ & Hf).
  split; [exact Hp|]. split; [exact Hl | exact Hf].
Defined.

Lemma init_termina_testigo :
  (30 ≤ length fuente_ejemplo)%nat ∧
  Forall (λ v, v ≤ sorteo_maximo) fuente_ejemplo ∧
  is_Some (init fuente_ejemplo).
Proof.
  assert (Hl : (30 ≤ length fuente_ejemplo)%nat) by (vm_compute; lia).
  assert (Hf : Forall (λ v, v ≤ sorteo_maximo) fuente_ejemplo)
    by (apply Forall_forall; intros v Hv;
        apply elem_of_replicate in Hv as [-> _]; unfold sorteo_maximo; lia).
  split; [exact Hl|]. split; [exact Hf|].
  exact (init_termina fuente_ejemplo Hl Hf).
Defined.

Lemma conserva_testigo :
  ejecutar traza_ejemplo sistema_en_4 = Some resultado_ejemplo ∧
  id <$> liberados resultado_ejemplo.2 = [1] ∧
  datos <$> censo sistema_en_4 ≡ₚ
    datos <$> (censo resultado_ejemplo.1 ++ liberados resultado_ejemplo.2).
Proof.
  assert (He : ejecutar traza_ejemplo sistema_en_4 = Some resultado_ejemplo)
    by (vm_compute; reflexivity).
  split; [exact He|]. split; [reflexivity|].
  exact (ejecutar_conserva_los_aviones traza_ejemplo sistema_en_4
           resultado_ejemplo.1 resultado_ejemplo.2 He).
Defined.

Lemma flota_testigo :
  Alcanzable sistema_en_4 ∧
  flota_en_orden (datos <$> censo sistema_en_4) ∧
  (length (censo sistema_en_4) ≤ 30)%nat.
Proof.
  split; [exact Alcanzable_sistema_en_4|].
  exact (flota_en_todo_estado sistema_en_4 Alcanzable_sistema_en_4).
Defined.

Lemma despacho_exclusivo_testigo :
  Alcanzable sistema_en_1 ∧
  estadoActual (globales sistema_en_1) = 1 ∧
  paso (Girar 0) sistema_en_1 =
    Some (turno_ejemplo.1, EvTurno 0 [] (Pista (mkAvion 1 "A" 101 1))) ∧
  mkAvion 1 "A" 101 1 ∈ colaAviones (globales sistema_en_1) ∧
  (1 ≤ estadoActual (globales sistema_en_1) ≤ 3 →
   categoria (mkAvion 1 "A" 101 1) =
     categoriaEstado (estadoActual (globales sistema_en_1))).
Proof.
  assert (Ha : Alcanzable sistema_en_1).
  { apply (Alcanzable_ejecutar [Conectar; Recibir "1"] sistema_inicial_ejemplo);
      [apply (alc_init fuente_ejemplo) | ]; vm_compute; reflexivity. }
  assert (Hp : paso (Girar 0) sistema_en_1 =
               Some (turno_ejemplo.1, EvTurno 0 [] (Pista (mkAvion 1 "A" 101 1))))
    by (vm_compute; reflexivity).
  split; [exact Ha|]. split; [reflexivity|]. split; [exact Hp|].
  exact (despacho_en_estado_exclusivo sistema_en_1 turno_ejemplo.1 0 []
           (Pista (mkAvion 1 "A" 101 1)) Ha Hp).
Defined.

Lemma despachadores_testigo :
  ejecutar [Conectar; Girar 0; Conectar] sistema_inicial_ejemplo =
    Some (mkSistema (globales sistema_inicial_ejemplo) [tt; tt; tt]
                    [EnBucle; EnBucle],
          [EvConectar; EvTurno 0 [] Espera; EvConectar]) ∧
  conexiones [Conectar; Girar 0; Conectar] = 2%nat ∧
  length [EnBucle; EnBucle] =
    (length (despachadores sistema_inicial_ejemplo) + 2)%nat.
Proof.
  assert (He : ejecutar [Conectar; Girar 0; Conectar] sistema_inicial_ejemplo =
                 Some (mkSistema (globales sistema_inicial_ejemplo) [tt; tt; tt]
                                 [EnBucle; EnBucle],
                       [EvConectar; EvTurno 0 [] Espera; EvConectar]))
    by (vm_compute; reflexivity).
  split; [exact He|]. split; [reflexivity|].
  exact (proj1 (despachadores_y_conexiones _ _ _ _ He)).
Defined.

Lemma sin_despacho_testigo :
  "9" +:+ nl ≠ "" ∧ Atoi (TrimSpace ("9" +:+ nl)) = Some 9 ∧ ¬ (1 ≤ 9 ≤ 8) ∧
  sin_transicion [Girar 0; Recibir "hola"; Girar 0] ∧
  ejecutar traza_cierre sistema_en_4 = Some resultado_cierre ∧
  estadoActual (globales resultado_cierre.1) = 9 ∧
  procesar (globales resultado_cierre.1) = false ∧
  colaAviones (globales resultado_cierre.1) = colaAviones (globales sistema_en_4) ∧
  extraidos resultado_cierre.2 = [] ∧ despachados resultado_cierre.2 = [].
Proof.
  assert (H1 : "9" +:+ nl ≠ "") by discriminate.
  assert (H2 : Atoi (TrimSpace ("9" +:+ nl)) = Some 9) by (vm_compute; reflexivity).
  assert (H3 : ¬ (1 ≤ 9 ≤ 8)) by lia.
  assert (H4 : sin_transicion [Girar 0; Recibir "hola"; Girar 0])
    by (unfold sin_transicion; repeat constructor).
  assert (H5 : ejecutar traza_cierre sistema_en_4 = Some resultado_cierre)
    by (vm_compute; reflexivity).
  split; [exact H1|]. split; [exact H2|]. split; [exact H3|].
  split; [exact H4|]. split; [exact H5|].
  exact (sin_despacho_fuera_de_1_a_8 ("9" +:+ nl) 9
           [Girar 0; Recibir "hola"; Girar 0] sistema_en_4
           resultado_cierre.1 resultado_cierre.2 H1 H2 H3 H4 H5).
Defined.


Lemma cola_y_despachados_testigo :
  ejecutar traza_ejemplo sistema_en_4 = Some resultado_ejemplo ∧
  id <$> despachados resultado_ejemplo.2 = [1; 10] ∧
  datos <$> colaAviones (globales sistema_en_4) ≡ₚ
    datos <$> (colaAviones (globales resultado_ejemplo.1)
               ++ despachados resultado_ejemplo.2).
Proof.
  assert (He : ejecutar traza_ejemplo sistema_en_4 = Some resultado_ejemplo)
    by (vm_compute; reflexivity).
  split; [exact He|]. split; [reflexivity|].
  exact (proj1 (cola_y_despachados traza_ejemplo sistema_en_4
                  resultado_ejemplo.1 resultado_ejemplo.2 He)).
Defined.
